(** * Catatan Online: a shallow embedding of [CatatanOnline.jsx]

    The component keeps an ordered list of notes in React state, mirrors it
    to one [localStorage] slot through the [useLocalStorage] hook, and posts
    it to a fixed address through the [useFetch] hook whenever the [sync]
    flag is raised.

    JavaScript strings are sequences of UTF-16 code units; they are modelled
    as [list N].  The platform functions the source calls ([String.trim],
    [JSON.stringify], [JSON.parse], [localStorage], [setTimeout],
    [clearTimeout], [Date.now], [fetch]) are modelled next to the code that
    calls them.

    The state of the component and of the browser around it is one record,
    [world], which every handler takes and returns.  A handler or a timer
    callback runs to completion and React renders once after it; time passes
    in steps of one millisecond.  Note ids are integers; the rounding of
    JavaScript numbers and the interleaving of concurrent React renders are
    not modelled. *)

From Stdlib Require Import ZArith NArith Lia String Ascii.
From stdpp Require Import base option list gmap.

Local Open Scope N_scope.

(** ** JavaScript strings *)

Abbreviation jsstring := (list N).

(** The code units of an ASCII literal of the source text. *)
Fixpoint units (s : string) : jsstring :=
  match s with
  | EmptyString => []
  | String a r => N_of_ascii a :: units r
  end.

(** [WhiteSpace] and [LineTerminator] of ECMAScript, the code units that
    [String.prototype.trim] strips. *)
Definition is_white (c : N) : bool :=
  (c =? 9) || (c =? 10) || (c =? 11) || (c =? 12) || (c =? 13) || (c =? 32)
  || (c =? 160) || (c =? 5760) || ((8192 <=? c) && (c <=? 8202))
  || (c =? 8232) || (c =? 8233) || (c =? 8239) || (c =? 8287)
  || (c =? 12288) || (c =? 65279).

Fixpoint trimStart (s : jsstring) : jsstring :=
  match s with
  | [] => []
  | c :: r => if is_white c then trimStart r else s
  end.

Definition trimEnd (s : jsstring) : jsstring := reverse (trimStart (reverse s)).

Definition trim (s : jsstring) : jsstring := trimEnd (trimStart s).

(** [!s] for a string [s]: only the empty string is falsy. *)
Definition falsy (s : jsstring) : bool :=
  match s with [] => true | _ => false end.

(** ** JSON values and text *)

#[local] Set Warnings "-register-all".

(** What [JSON.parse] returns.  A number literal is kept as the exact decimal
    it denotes, [JNum m e] standing for [m * 10 ^ e]; the rounding of
    JavaScript numbers to doubles is outside the model. *)
Inductive json : Type :=
  | JNull
  | JBool (b : bool)
  | JNum (m : Z) (e : Z)
  | JStr (s : jsstring)
  | JArr (xs : list json)
  | JObj (ms : list (jsstring * json)).

(** *** Serialising *)

Definition hexdigit (d : N) : N := if d <? 10 then 48 + d else 87 + d.

(** [\uXXXX], four lower-case hexadecimal digits. *)
Definition unicode_escape (c : N) : jsstring :=
  [92; 117; hexdigit (c / 4096 mod 16); hexdigit (c / 256 mod 16);
   hexdigit (c / 16 mod 16); hexdigit (c mod 16)].

Definition is_high (c : N) : bool := (55296 <=? c) && (c <=? 56319).
Definition is_low (c : N) : bool := (56320 <=? c) && (c <=? 57343).

(** One code unit outside a surrogate pair, as [QuoteJSONString] writes it. *)
Definition quote_unit (c : N) : jsstring :=
  if c =? 8 then [92; 98]
  else if c =? 9 then [92; 116]
  else if c =? 10 then [92; 110]
  else if c =? 12 then [92; 102]
  else if c =? 13 then [92; 114]
  else if c =? 34 then [92; 34]
  else if c =? 92 then [92; 92]
  else if (c <? 32) || is_high c || is_low c then unicode_escape c
  else [c].

(** The body of a quoted string: a high surrogate followed by a low one is a
    code point and is copied; every other surrogate is escaped. *)
Fixpoint quote_units (s : jsstring) : jsstring :=
  match s with
  | [] => []
  | c :: r =>
      if is_high c then
        match r with
        | d :: r' =>
            if is_low d then c :: d :: quote_units r'
            else unicode_escape c ++ quote_units r
        | [] => unicode_escape c
        end
      else quote_unit c ++ quote_units r
  end.

Definition quote (s : jsstring) : jsstring := 34 :: quote_units s ++ [34].

(** Decimal digits of a natural number, most significant first, pushed in
    front of [acc]. *)
Fixpoint digits_fuel (fuel : nat) (n : N) (acc : jsstring) : jsstring :=
  match fuel with
  | O => acc
  | S f =>
      let acc' := (48 + n mod 10) :: acc in
      if n <? 10 then acc' else digits_fuel f (n / 10) acc'
  end.

Definition N_to_units (n : N) : jsstring :=
  digits_fuel (S (N.to_nat (N.log2 n))) n [].

(** [Number::toString] on an integer: plain decimal digits (which is what
    the platform prints for every integer below [10 ^ 21] in magnitude, so
    for every timestamp). *)
Definition Z_to_units (z : Z) : jsstring :=
  if (z <? 0)%Z then 45 :: N_to_units (Z.abs_N z) else N_to_units (Z.abs_N z).

(** *** Parsing *)

Definition is_json_ws (c : N) : bool :=
  (c =? 32) || (c =? 9) || (c =? 10) || (c =? 13).

Fixpoint skip_ws (s : jsstring) : jsstring :=
  match s with
  | [] => []
  | c :: r => if is_json_ws c then skip_ws r else s
  end.

Definition is_digit (c : N) : bool := (48 <=? c) && (c <=? 57).

Definition hexval (c : N) : option N :=
  if is_digit c then Some (c - 48)
  else if (97 <=? c) && (c <=? 102) then Some (c - 87)
  else if (65 <=? c) && (c <=? 70) then Some (c - 55)
  else None.

Definition hex4 (h1 h2 h3 h4 : N) : option N :=
  match hexval h1, hexval h2, hexval h3, hexval h4 with
  | Some a, Some b, Some c, Some d => Some (((a * 16 + b) * 16 + c) * 16 + d)
  | _, _, _, _ => None
  end.

(** The code unit a one-letter escape stands for. *)
Definition unescape (e : N) : option N :=
  if e =? 34 then Some 34
  else if e =? 92 then Some 92
  else if e =? 47 then Some 47
  else if e =? 98 then Some 8
  else if e =? 102 then Some 12
  else if e =? 110 then Some 10
  else if e =? 114 then Some 13
  else if e =? 116 then Some 9
  else None.

Definition cons_fst {A B} (a : A) (r : option (list A * B)) : option (list A * B) :=
  match r with
  | Some (l, b) => Some (a :: l, b)
  | None => None
  end.

(** A string after its opening quote: the code units up to the closing
    quote, and what follows it. *)
Fixpoint parse_chars (s : jsstring) : option (jsstring * jsstring) :=
  match s with
  | [] => None
  | c :: r =>
      if c =? 34 then Some ([], r)
      else if c =? 92 then
        match r with
        | [] => None
        | e :: r1 =>
            if e =? 117 then
              match r1 with
              | h1 :: h2 :: h3 :: h4 :: r2 =>
                  match hex4 h1 h2 h3 h4 with
                  | Some u => cons_fst u (parse_chars r2)
                  | None => None
                  end
              | _ => None
              end
            else
              match unescape e with
              | Some u => cons_fst u (parse_chars r1)
              | None => None
              end
        end
      else if c <? 32 then None
      else cons_fst c (parse_chars r)
  end.

(** Reads decimal digits into the accumulator [a]. *)
Fixpoint read_digits (a : N) (s : jsstring) : N * jsstring :=
  match s with
  | [] => (a, [])
  | c :: r => if is_digit c then read_digits (a * 10 + (c - 48)) r else (a, s)
  end.

(** Digits that must start with one digit at least. *)
Definition read_digits1 (a : N) (s : jsstring) : option (N * jsstring) :=
  match s with
  | c :: _ => if is_digit c then Some (read_digits a s) else None
  | [] => None
  end.

(** The optional fraction: the mantissa with the fraction digits appended,
    their number, and the rest. *)
Definition parse_frac (ip : N) (s : jsstring) : option (N * nat * jsstring) :=
  match s with
  | c :: r =>
      if c =? 46 then
        match read_digits1 ip r with
        | Some (m, r') => Some (m, (length r - length r')%nat, r')
        | None => None
        end
      else Some (ip, O, s)
  | [] => Some (ip, O, s)
  end.

(** The optional exponent. *)
Definition parse_exp (s : jsstring) : option (Z * jsstring) :=
  match s with
  | c :: r =>
      if (c =? 101) || (c =? 69) then
        let '(neg, r0) :=
          match r with
          | sg :: r' =>
              if sg =? 45 then (true, r')
              else if sg =? 43 then (false, r') else (false, r)
          | [] => (false, r)
          end in
        match read_digits1 0 r0 with
        | Some (x, r1) => Some (if neg then (- Z.of_N x)%Z else Z.of_N x, r1)
        | None => None
        end
      else Some (0%Z, s)
  | [] => Some (0%Z, s)
  end.

(** A number: an optional minus sign; a single zero, or a non-zero digit
    followed by digits; optionally a dot and one digit or more; optionally
    an exponent mark, a sign and one digit or more. *)
Definition parse_number (s : jsstring) : option (json * jsstring) :=
  let '(neg, s0) :=
    match s with
    | c :: r => if c =? 45 then (true, r) else (false, s)
    | [] => (false, s)
    end in
  match s0 with
  | [] => None
  | c :: r =>
      if is_digit c then
        let '(ip, s1) := if c =? 48 then (0, r) else read_digits (c - 48) r in
        match parse_frac ip s1 with
        | Some (m, fd, s2) =>
            match parse_exp s2 with
            | Some (e, s3) =>
                Some (JNum (if neg then - Z.of_N m else Z.of_N m)%Z
                           (e - Z.of_nat fd)%Z, s3)
            | None => None
            end
        | None => None
        end
      else None
  end.

Fixpoint strip_prefix (p s : jsstring) : option jsstring :=
  match p with
  | [] => Some s
  | a :: p' =>
      match s with
      | c :: r => if c =? a then strip_prefix p' r else None
      | [] => None
      end
  end.

Definition parse_literal (s : jsstring) : option (json * jsstring) :=
  match strip_prefix (units "true") s with
  | Some r => Some (JBool true, r)
  | None =>
      match strip_prefix (units "false") s with
      | Some r => Some (JBool false, r)
      | None =>
          match strip_prefix (units "null") s with
          | Some r => Some (JNull, r)
          | None => parse_number s
          end
      end
  end.

(** Recursive descent over values, array elements and object members.  The
    fuel bounds the number of nested calls; [JSON_parse] supplies enough of
    it for the whole text (see [parse_value_fuel]). *)
Fixpoint parse_value (fuel : nat) (s : jsstring) {struct fuel}
  : option (json * jsstring) :=
  match fuel with
  | O => None
  | S f =>
      match skip_ws s with
      | [] => None
      | c :: r =>
          if c =? 34 then
            match parse_chars r with
            | Some (str, r') => Some (JStr str, r')
            | None => None
            end
          else if c =? 91 then
            match skip_ws r with
            | d :: r' =>
                if d =? 93 then Some (JArr [], r')
                else
                  match parse_elements f r with
                  | Some (xs, r'') => Some (JArr xs, r'')
                  | None => None
                  end
            | [] => None
            end
          else if c =? 123 then
            match skip_ws r with
            | d :: r' =>
                if d =? 125 then Some (JObj [], r')
                else
                  match parse_members f r with
                  | Some (ms, r'') => Some (JObj ms, r'')
                  | None => None
                  end
            | [] => None
            end
          else parse_literal (c :: r)
      end
  end
(** Values separated by commas, up to the closing bracket. *)
with parse_elements (fuel : nat) (s : jsstring) {struct fuel}
  : option (list json * jsstring) :=
  match fuel with
  | O => None
  | S f =>
      match parse_value f s with
      | Some (v, r) =>
          match skip_ws r with
          | c :: r' =>
              if c =? 44 then cons_fst v (parse_elements f r')
              else if c =? 93 then Some ([v], r')
              else None
          | [] => None
          end
      | None => None
      end
  end
(** Members [key : value] separated by commas, up to the closing brace. *)
with parse_members (fuel : nat) (s : jsstring) {struct fuel}
  : option (list (jsstring * json) * jsstring) :=
  match fuel with
  | O => None
  | S f =>
      match skip_ws s with
      | q :: r0 =>
          if q =? 34 then
            match parse_chars r0 with
            | Some (k, r1) =>
                match skip_ws r1 with
                | c :: r2 =>
                    if c =? 58 then
                      match parse_value f r2 with
                      | Some (v, r3) =>
                          match skip_ws r3 with
                          | d :: r4 =>
                              if d =? 44 then cons_fst (k, v) (parse_members f r4)
                              else if d =? 125 then Some ([(k, v)], r4)
                              else None
                          | [] => None
                          end
                      | None => None
                      end
                    else None
                | [] => None
                end
            | None => None
            end
          else None
      | [] => None
      end
  end.

(** [JSON.parse]: one value, then only white space.  [None] stands for the
    [SyntaxError] the platform throws. *)
Definition JSON_parse (s : jsstring) : option json :=
  match parse_value (2 * length s + 2) s with
  | Some (v, r) => match skip_ws r with [] => Some v | _ => None end
  | None => None
  end.

(** ** Notes *)

(** A note as [handleAddOrEdit] builds it: [{ id: Date.now(), text: input }]. *)
Record note : Type := Note { id : Z; text : jsstring }.

(** [JSON.stringify] on a note: its two properties in creation order, no
    white space. *)
Definition stringify_note (n : note) : jsstring :=
  [123] ++ quote (units "id") ++ [58] ++ Z_to_units (id n) ++ [44]
        ++ quote (units "text") ++ [58] ++ quote (text n) ++ [125].

Fixpoint stringify_elements (l : list note) : jsstring :=
  match l with
  | [] => []
  | [n] => stringify_note n
  | n :: r => stringify_note n ++ [44] ++ stringify_elements r
  end.

(** [JSON.stringify] on the note list. *)
Definition JSON_stringify (l : list note) : jsstring :=
  [91] ++ stringify_elements l ++ [93].

(** The note list as the value [JSON.parse] builds for it. *)
Definition note_to_json (n : note) : json :=
  JObj [(units "id", JNum (id n) 0); (units "text", JStr (text n))].

Definition notes_to_json (l : list note) : json := JArr (note_to_json <$> l).

(** The integer a number literal denotes, when it denotes one. *)
Definition integer_of (m e : Z) : option Z :=
  if (0 <=? e)%Z then Some (m * 10 ^ e)%Z
  else if (m mod 10 ^ (- e) =? 0)%Z then Some (m / 10 ^ (- e))%Z
  else None.

(** Reading a parsed value back as a note: an object with exactly the two
    properties of a note, in either order. *)
Definition json_to_note (v : json) : option note :=
  match v with
  | JObj [(k1, JNum m e); (k2, JStr t)] =>
      if decide (k1 = units "id" ∧ k2 = units "text")
      then (λ i, Note i t) <$> integer_of m e else None
  | JObj [(k2, JStr t); (k1, JNum m e)] =>
      if decide (k1 = units "id" ∧ k2 = units "text")
      then (λ i, Note i t) <$> integer_of m e else None
  | _ => None
  end.

Definition json_to_notes (v : json) : option (list note) :=
  match v with
  | JArr xs => mapM json_to_note xs
  | _ => None
  end.

(** ** The browser: exceptions, [localStorage], timers, the network *)

Inductive js_error : Type := SecurityError | QuotaExceededError | TypeError.

(** The outcome of a call that may throw. *)
Inductive result (A : Type) : Type :=
  | Ok (a : A)
  | Throw (e : js_error).
Arguments Ok {A} a.
Arguments Throw {A} e.

(** [window.localStorage]: the slots, whether the page may use the storage
    at all, and how many code units it may hold. *)
Record localStorage : Type := LocalStorage {
  available : bool;
  quota : nat;
  items : gmap jsstring jsstring
}.

Definition used (m : gmap jsstring jsstring) : nat :=
  map_fold (λ k v acc, length k + length v + acc)%nat O m.

(** [getItem] answers [null] ([None]) for a slot that was never written. *)
Definition getItem (ls : localStorage) (key : jsstring) : result (option jsstring) :=
  if available ls then Ok (items ls !! key) else Throw SecurityError.

Definition setItem (ls : localStorage) (key value : jsstring) : result localStorage :=
  if available ls then
    if decide (used (<[key := value]> (items ls)) ≤ quota ls)%nat
    then Ok (LocalStorage true (quota ls) (<[key := value]> (items ls)))
    else Throw QuotaExceededError
  else Throw SecurityError.

(** What a timer runs when it fires: the two arrow functions the component
    passes to [setTimeout]. *)
Inductive callback : Type :=
  | cb_setInput (value : jsstring)
  | cb_setSyncFalse.

Record timer : Type := Timer { tid : nat; due : Z; cb : callback }.

(** A call of [fetch]. *)
Record request : Type := Request {
  url : jsstring;
  method : jsstring;
  content_type : jsstring;
  body : jsstring
}.

Definition API_URL : jsstring := units "https://jsonplaceholder.typicode.com/posts".

(** ** The component and its surroundings

    The [useState] cells and refs of [CatatanOnline], the dependencies the
    [useFetch] effect last ran with, and the browser around them.  Every
    array [setNotes] stores is a new object: [notes_ref] is its identity,
    which is what React compares in the dependency list of the effect. *)
Record world : Type := World {
  notes : list note;
  notes_ref : nat;
  input : jsstring;
  editId : option Z;
  sync : bool;
  debounceTimeout : option nat;
  focused : bool;
  effect_deps : option (nat * bool);
  now : Z;
  timers : list timer;
  next_tid : nat;
  storage : localStorage;
  sent : list request;
  fired : list (Z * callback)
}.

Definition setStoredValue (l : list note) (w : world) : world :=
  World l (S (notes_ref w)) (input w) (editId w) (sync w) (debounceTimeout w)
        (focused w) (effect_deps w) (now w) (timers w) (next_tid w)
        (storage w) (sent w) (fired w).

Definition setInput (s : jsstring) (w : world) : world :=
  World (notes w) (notes_ref w) s (editId w) (sync w) (debounceTimeout w)
        (focused w) (effect_deps w) (now w) (timers w) (next_tid w)
        (storage w) (sent w) (fired w).

Definition setEditId (e : option Z) (w : world) : world :=
  World (notes w) (notes_ref w) (input w) e (sync w) (debounceTimeout w)
        (focused w) (effect_deps w) (now w) (timers w) (next_tid w)
        (storage w) (sent w) (fired w).

Definition setSync (b : bool) (w : world) : world :=
  World (notes w) (notes_ref w) (input w) (editId w) b (debounceTimeout w)
        (focused w) (effect_deps w) (now w) (timers w) (next_tid w)
        (storage w) (sent w) (fired w).

Definition set_debounceTimeout (t : option nat) (w : world) : world :=
  World (notes w) (notes_ref w) (input w) (editId w) (sync w) t
        (focused w) (effect_deps w) (now w) (timers w) (next_tid w)
        (storage w) (sent w) (fired w).

(** [inputRef.current.focus()] *)
Definition focus (w : world) : world :=
  World (notes w) (notes_ref w) (input w) (editId w) (sync w) (debounceTimeout w)
        true (effect_deps w) (now w) (timers w) (next_tid w)
        (storage w) (sent w) (fired w).

Definition set_effect_deps (d : option (nat * bool)) (w : world) : world :=
  World (notes w) (notes_ref w) (input w) (editId w) (sync w) (debounceTimeout w)
        (focused w) d (now w) (timers w) (next_tid w)
        (storage w) (sent w) (fired w).

Definition set_storage (ls : localStorage) (w : world) : world :=
  World (notes w) (notes_ref w) (input w) (editId w) (sync w) (debounceTimeout w)
        (focused w) (effect_deps w) (now w) (timers w) (next_tid w)
        ls (sent w) (fired w).

(** [setTimeout(cb, delay)]: the new timer gets the next identifier. *)
Definition setTimeout (c : callback) (delay : Z) (w : world) : world :=
  World (notes w) (notes_ref w) (input w) (editId w) (sync w) (debounceTimeout w)
        (focused w) (effect_deps w) (now w)
        (timers w ++ [Timer (next_tid w) (now w + delay) c]) (S (next_tid w))
        (storage w) (sent w) (fired w).

(** [clearTimeout(t)]; [undefined] cancels nothing. *)
Definition clearTimeout (t : option nat) (w : world) : world :=
  match t with
  | None => w
  | Some i =>
      World (notes w) (notes_ref w) (input w) (editId w) (sync w)
            (debounceTimeout w) (focused w) (effect_deps w) (now w)
            (filter (λ x, tid x ≠ i) (timers w)) (next_tid w)
            (storage w) (sent w) (fired w)
  end.

Definition fetch (r : request) (w : world) : world :=
  World (notes w) (notes_ref w) (input w) (editId w) (sync w) (debounceTimeout w)
        (focused w) (effect_deps w) (now w) (timers w) (next_tid w)
        (storage w) (sent w ++ [r]) (fired w).

(** ** [useLocalStorage] *)

(** The initialiser of the state cell: the slot is read and parsed, and
    whatever goes wrong gives [initialValue]. *)
Definition useLocalStorage_load (ls : localStorage) (key : jsstring)
    (initialValue : json) : json :=
  match getItem ls key with
  | Ok (Some item) =>
      if falsy item then initialValue
      else match JSON_parse item with
           | Some v => v
           | None => initialValue
           end
  | Ok None => initialValue
  | Throw _ => initialValue
  end.

(** The write in [setValue]; an exception of [setItem] is caught and dropped. *)
Definition useLocalStorage_save (ls : localStorage) (key : jsstring)
    (value : list note) : localStorage :=
  match setItem ls key (JSON_stringify value) with
  | Ok ls' => ls'
  | Throw _ => ls
  end.

(** [setValue(value)] with [value] a function of the stored value. *)
Definition setValue (key : jsstring) (value : list note → list note)
    (w : world) : world :=
  let valueToStore := value (notes w) in
  let w1 := setStoredValue valueToStore w in
  set_storage (useLocalStorage_save (storage w1) key valueToStore) w1.

(** ** [useFetch] *)

(** The effect body. *)
Definition useFetch (u : jsstring) (data : list note) (trigger : bool)
    (w : world) : world :=
  if negb trigger then w
  else fetch (Request u (units "POST") (units "application/json")
                (JSON_stringify data)) w.

(** React runs the effect after a render in which [data] or [trigger]
    differs from the render the effect last ran in ([url] is a constant). *)
Definition render (w : world) : world :=
  let deps := (notes_ref w, sync w) in
  if decide (effect_deps w = Some deps) then w
  else set_effect_deps (Some deps) (useFetch API_URL (notes w) (sync w) w).

(** ** The handlers of [CatatanOnline] *)

Definition setNotes := setValue (units "catatan").

Definition handleInput (value : jsstring) (w : world) : world :=
  let w1 := clearTimeout (debounceTimeout w) w in
  set_debounceTimeout (Some (next_tid w1)) (setTimeout (cb_setInput value) 100 w1).

(** [startTransition] runs its callback at once; [isPending] only drives the
    busy indicator and is left out. *)
Definition handleAddOrEdit (w : world) : world :=
  if falsy (trim (input w)) then w
  else
    let w1 :=
      match editId w with
      | Some e =>
          setEditId None
            (setNotes
               (λ prev, (λ n, if decide (id n = e) then Note (id n) (input w) else n)
                          <$> prev) w)
      | None => setNotes (λ prev, prev ++ [Note (now w) (input w)]) w
      end in
    setTimeout cb_setSyncFalse 500 (setSync true (setInput [] w1)).

(** [notes.find(...)] gives [undefined] when no note matches, and reading
    [.text] of it throws. *)
Definition handleEdit (x : Z) (w : world) : result world :=
  match List.find (λ n, bool_decide (id n = x)) (notes w) with
  | Some n => Ok (focus (setEditId (Some x) (setInput (text n) w)))
  | None => Throw TypeError
  end.

Definition handleDelete (x : Z) (w : world) : world :=
  setTimeout cb_setSyncFalse 500
    (setSync true (setNotes (λ prev, filter (λ n, id n ≠ x) prev) w)).

(** ** Events *)

Inductive event : Type :=
  | Change (value : jsstring)
  | Submit
  | ClickEdit (x : Z)
  | ClickDelete (x : Z).

(** One user event: the handler runs to completion, then React renders.  A
    handler that throws leaves the state as it was. *)
Definition dispatch (e : event) (w : world) : result world :=
  match e with
  | Change value => Ok (render (handleInput value w))
  | Submit => Ok (render (handleAddOrEdit w))
  | ClickEdit x =>
      match handleEdit x w with
      | Ok w' => Ok (render w')
      | Throw err => Throw err
      end
  | ClickDelete x => Ok (render (handleDelete x w))
  end.

Definition run_callback (c : callback) (w : world) : world :=
  match c with
  | cb_setInput value => setInput value w
  | cb_setSyncFalse => setSync false w
  end.

(** The record of a callback that ran, with the time it ran at. *)
Definition log_fired (c : callback) (w : world) : world :=
  World (notes w) (notes_ref w) (input w) (editId w) (sync w) (debounceTimeout w)
        (focused w) (effect_deps w) (now w) (timers w) (next_tid w)
        (storage w) (sent w) (fired w ++ [(now w, c)]).

(** A timer fires: its callback runs, then React renders. *)
Definition fire (w : world) (t : timer) : world :=
  render (log_fired (cb t) (run_callback (cb t) w)).

Definition set_clock (t : Z) (pending : list timer) (w : world) : world :=
  World (notes w) (notes_ref w) (input w) (editId w) (sync w) (debounceTimeout w)
        (focused w) (effect_deps w) t pending (next_tid w)
        (storage w) (sent w) (fired w).

(** One millisecond passes: the timers that are due leave the queue and
    fire in the order they were set. *)
Definition tick (w : world) : world :=
  let t := (now w + 1)%Z in
  foldl fire
    (set_clock t (filter (λ x, (t < due x)%Z) (timers w)) w)
    (filter (λ x, (due x ≤ t)%Z) (timers w)).

Fixpoint ticks (k : nat) (w : world) : world :=
  match k with
  | O => w
  | S k' => ticks k' (tick w)
  end.

(** Keystrokes, each after a pause of so many milliseconds: the [onChange]
    handler runs and React renders. *)
Fixpoint keystrokes (ks : list (nat * jsstring)) (w : world) : world :=
  match ks with
  | [] => w
  | (pause, value) :: r => keystrokes r (render (handleInput value (ticks pause w)))
  end.

(** The component mounts: the state cells get their initial values, the
    notes come from the storage, and the first render runs the effect.  A
    slot that holds something other than a list of notes is outside the
    data model. *)
Definition mount (ls : localStorage) (t0 : Z) : option world :=
  match json_to_notes (useLocalStorage_load ls (units "catatan") (JArr [])) with
  | Some l =>
      Some (render (World l O [] None false None false None t0 [] 1%nat ls [] []))
  | None => None
  end.

(** ** Invariants and observations *)

(** The state a render leaves behind: the effect has seen the current
    dependencies. *)
Definition rendered (w : world) : Prop :=
  effect_deps w = Some (notes_ref w, sync w).

(** The request [useFetch] makes for a note list. *)
Definition post (l : list note) : request :=
  Request API_URL (units "POST") (units "application/json") (JSON_stringify l).

Definition is_setInput (c : callback) : bool :=
  match c with cb_setInput _ => true | cb_setSyncFalse => false end.

(** The timers that will commit an input value, and the commits so far. *)
Definition pending_inputs (w : world) : list timer :=
  filter (λ t, is_setInput (cb t)) (timers w).

Definition input_commits (w : world) : list (Z * callback) :=
  filter (λ p, is_setInput p.2) (fired w).

(** The one timer that may commit an input value is the one
    [debounceTimeout.current] names. *)
Definition debounce_inv (w : world) : Prop :=
  ∀ t, t ∈ timers w → is_setInput (cb t) → debounceTimeout w = Some (tid t).

(** The input value after the callbacks of the timers [D] ran in order. *)
Definition apply_inputs (D : list timer) (i : jsstring) : jsstring :=
  foldl (λ i t, match cb t with cb_setInput v => v | cb_setSyncFalse => i end) i D.

Ltac world_simpl :=
  cbn [notes notes_ref input editId sync debounceTimeout focused effect_deps
       now timers next_tid storage sent fired
       setStoredValue setInput setEditId setSync set_debounceTimeout focus
       set_effect_deps set_storage setTimeout fetch] in *.

(** Where a number literal ends: the next code unit continues neither the
    digits, nor with a fraction, nor with an exponent. *)
Definition ends_number (c : N) : bool :=
  negb (is_digit c || (c =? 46) || (c =? 101) || (c =? 69)).

(** A rendered world with the given notes, input, edit mode and clock, for
    the examples. *)
Definition world_of (l : list note) (s : jsstring) (e : option Z) (t : Z) : world :=
  World l O s e false None false (Some (O, false)) t [] 1%nat
        (LocalStorage true 4096 ∅) [] [].

(** A slot that holds two notes with one id (two notes made in the same
    millisecond), and the component mounted on it. *)
Definition twins_storage : localStorage :=
  LocalStorage true 4096
    {[ units "catatan" := JSON_stringify [Note 1 [97]; Note 1 [98]] ]}.

Definition twins : world :=
  World [Note 1 [97]; Note 1 [98]] O [] None false None false (Some (O, false))
        7 [] 1%nat twins_storage [] [].

(** ** The states the component can be in *)

(** The world after the mount, any number of user events, and any passage of
    time. *)
Inductive reachable : world → Prop :=
  | reach_mount ls t0 w : mount ls t0 = Some w → reachable w
  | reach_event e w w' : reachable w → dispatch e w = Ok w' → reachable w'
  | reach_tick w : reachable w → reachable (tick w).

(** ** What the component shows

    The element tree [CatatanOnline] returns, without its styles and fixed
    texts: the submit button, the busy mark, the line shown for an empty
    list, and one entry per note with its two buttons.  [isPending] comes
    from [useTransition]. *)

Record item_view : Type := ItemView {
  item_key : Z;
  item_text : jsstring;
  onEditClick : event;
  onDeleteClick : event
}.

Record view : Type := View {
  submit_label : jsstring;
  submit_disabled : bool;
  loading_shown : bool;
  empty_shown : bool;
  list_items : list item_view
}.

Definition label_simpan : jsstring := [55357; 56510; 32] ++ units "Simpan".
Definition label_tambah : jsstring := [10133; 32] ++ units "Tambah".

Definition CatatanOnline_view (isPending : bool) (w : world) : view :=
  View (match editId w with Some _ => label_simpan | None => label_tambah end)
       isPending
       isPending
       (bool_decide (length (notes w) = O))
       ((λ n, ItemView (id n) (text n) (ClickEdit (id n)) (ClickDelete (id n)))
          <$> notes w).

(** ** More invariants and observations *)

(** No note has a text that [trim] empties. *)
Definition notes_nonblank (w : world) : Prop :=
  ∀ n, n ∈ notes w → trim (text n) ≠ [].

(** Timer identifiers are handed out once, and the identifier in
    [debounceTimeout.current] is never that of a timer that lowers [sync]. *)
Definition timers_owned (w : world) : Prop :=
  (∀ t, t ∈ timers w → (tid t < next_tid w)%nat)
  ∧ (∀ i, debounceTimeout w = Some i → (i < next_tid w)%nat)
  ∧ (∀ t, t ∈ timers w → debounceTimeout w = Some (tid t) → is_setInput (cb t)).

(** The timers that will lower [sync]. *)
Definition pending_resets (w : world) : list timer :=
  filter (λ t, ¬ is_setInput (cb t)) (timers w).

(** The storage holds the list the component holds. *)
Definition persisted (w : world) : Prop :=
  useLocalStorage_load (storage w) (units "catatan") (JArr [])
  = notes_to_json (notes w).

(** The storage takes the text of the list [L]: it is available and the
    text fits. *)
Definition accepts (ls : localStorage) (L : list note) : Prop :=
  available ls = true
  ∧ (used (<[units "catatan" := JSON_stringify L]> (items ls)) ≤ quota ls)%nat.

(** The events that call [setNotes]. *)
Definition mutates (e : event) (w : world) : Prop :=
  match e with
  | Submit => trim (input w) ≠ []
  | ClickDelete _ => True
  | Change _ | ClickEdit _ => False
  end.

#[global] Instance mutates_dec (e : event) (w : world) : Decision (mutates e w).
Proof. destruct e; cbn [mutates]; apply _. Defined.

(** The value of the last keystroke of a burst that starts with [v]. *)
Definition last_value (v : jsstring) (ks : list (nat * jsstring)) : jsstring :=
  foldl (λ _ p, p.2) v ks.

(** A world in which a mutation has just raised the flag: the timer that
    lowers it is pending. *)
Definition world_pulsing (l : list note) (s : jsstring) (t : Z) : world :=
  World l 1%nat s None true None false (Some (1%nat, true)) t
        [Timer 1 (t + 500) cb_setSyncFalse] 2%nat
        (LocalStorage true 4096 ∅) [] [].

(** A storage whose slot holds the empty list and whose quota leaves no room
    for a note, and the component mounted on it. *)
Definition full_storage : localStorage :=
  LocalStorage true 20 {[ units "catatan" := units "[]" ]}.

Definition world_full : world :=
  World [] O [] None false None false (Some (O, false)) 7 [] 1%nat
        full_storage [] [].

(** The list the updater of an event hands to [setNotes]. *)
Definition next_notes (e : event) (w : world) : list note :=
  match e with
  | Submit =>
      match editId w with
      | Some x =>
          (λ n, if decide (id n = x) then Note (id n) (input w) else n)
            <$> notes w
      | None => notes w ++ [Note (now w) (input w)]
      end
  | ClickDelete x => filter (λ n, id n ≠ x) (notes w)
  | Change _ | ClickEdit _ => notes w
  end.

(** A world whose storage is not available to the page. *)
Definition world_offline (l : list note) (s : jsstring) (e : option Z) (t : Z)
  : world :=
  World l O s e false None false (Some (O, false)) t [] 1%nat
        (LocalStorage false 4096 ∅) [] [].

(** ** Facts about the JSON text layer *)

Section json_text.

Implicit Types (c d : N) (s rest : jsstring).

Lemma hexval_hexdigit d : d < 16 → hexval (hexdigit d) = Some d.
Proof.
  intros Hd. unfold hexval, hexdigit, is_digit.
  destruct (d <? 10) eqn:E.
  - apply N.ltb_lt in E.
    replace ((48 <=? 48 + d) && (48 + d <=? 57)) with true
      by (symmetry; apply andb_true_iff; split; apply N.leb_le; lia).
    f_equal. lia.
  - apply N.ltb_ge in E.
    replace ((48 <=? 87 + d) && (87 + d <=? 57)) with false
      by (symmetry; apply andb_false_iff; right; apply N.leb_gt; lia).
    replace ((97 <=? 87 + d) && (87 + d <=? 102)) with true
      by (symmetry; apply andb_true_iff; split; apply N.leb_le; lia).
    f_equal. lia.
Qed.

Lemma hex4_unicode_escape c :
  c < 65536 →
  hex4 (hexdigit (c / 4096 mod 16)) (hexdigit (c / 256 mod 16))
       (hexdigit (c / 16 mod 16)) (hexdigit (c mod 16)) = Some c.
Proof.
  intros Hc. unfold hex4.
  rewrite !hexval_hexdigit by (apply N.mod_lt; lia).
  f_equal.
  assert (c / 256 = c / 16 / 16) as ->
    by (rewrite N.Div0.div_div; reflexivity).
  assert (c / 4096 = c / 16 / 16 / 16) as ->
    by (rewrite !N.Div0.div_div; reflexivity).
  pose proof (N.div_mod c 16 ltac:(lia)) as E0.
  pose proof (N.mod_lt c 16 ltac:(lia)) as B0.
  set (q1 := c / 16) in *. set (r0 := c mod 16) in *. clearbody q1 r0.
  pose proof (N.div_mod q1 16 ltac:(lia)) as E1.
  pose proof (N.mod_lt q1 16 ltac:(lia)) as B1.
  set (q2 := q1 / 16) in *. set (r1 := q1 mod 16) in *. clearbody q2 r1.
  pose proof (N.div_mod q2 16 ltac:(lia)) as E2.
  pose proof (N.mod_lt q2 16 ltac:(lia)) as B2.
  set (q3 := q2 / 16) in *. set (r2 := q2 mod 16) in *. clearbody q3 r2.
  rewrite (N.mod_small q3 16) by lia.
  lia.
Qed.

Lemma parse_chars_escape c s :
  c < 65536 → parse_chars (unicode_escape c ++ s) = cons_fst c (parse_chars s).
Proof.
  intros Hc. unfold unicode_escape. cbn [app parse_chars].
  change (92 =? 34) with false. change (92 =? 92) with true.
  change (117 =? 117) with true. cbv iota.
  by rewrite hex4_unicode_escape.
Qed.

Lemma parse_chars_plain c s :
  c ≠ 34 → c ≠ 92 → 32 <= c → parse_chars (c :: s) = cons_fst c (parse_chars s).
Proof.
  intros H1 H2 H3. cbn [parse_chars].
  apply N.eqb_neq in H1, H2. rewrite H1, H2.
  by apply N.ltb_ge in H3 as ->.
Qed.

Lemma surrogate_bound c : is_high c || is_low c = true → 32 <= c ∧ c < 65536 ∧ c ≠ 34 ∧ c ≠ 92.
Proof.
  unfold is_high, is_low. intros H.
  apply orb_true_iff in H as [H|H]; apply andb_true_iff in H as [H1 H2];
    apply N.leb_le in H1, H2; lia.
Qed.

Lemma parse_chars_quote_unit c s :
  parse_chars (quote_unit c ++ s) = cons_fst c (parse_chars s).
Proof.
  unfold quote_unit.
  repeat match goal with
  | |- context [if ?x =? ?k then _ else _] =>
      destruct (N.eqb_spec x k) as [->|?]; [reflexivity|]
  end.
  destruct ((c <? 32) || is_high c || is_low c) eqn:E.
  - apply parse_chars_escape.
    rewrite <- orb_assoc in E. apply orb_true_iff in E as [E|E].
    + apply N.ltb_lt in E. lia.
    + by apply surrogate_bound in E as (_ & ? & _).
  - apply orb_false_iff in E as [E _]. apply orb_false_iff in E as [E _].
    apply N.ltb_ge in E. by apply parse_chars_plain.
Qed.

Lemma parse_chars_quote_units_len (k : nat) s rest :
  (length s ≤ k)%nat →
  parse_chars (quote_units s ++ 34 :: rest) = Some (s, rest).
Proof.
  revert s. induction k as [|k IH]; intros s Hk.
  { destruct s; [reflexivity | simpl in Hk; lia]. }
  destruct s as [|c r]; [reflexivity|].
  simpl in Hk. cbn [quote_units].
  destruct (is_high c) eqn:Hh.
  - pose proof (surrogate_bound c) as Hc. rewrite Hh in Hc.
    destruct (Hc eq_refl) as (? & ? & ? & ?).
    destruct r as [|d r'].
    + rewrite parse_chars_escape by done. reflexivity.
    + destruct (is_low d) eqn:Hl.
      * pose proof (surrogate_bound d) as Hd. rewrite Hl, orb_true_r in Hd.
        destruct (Hd eq_refl) as (? & ? & ? & ?).
        cbn [app]. rewrite !parse_chars_plain by done.
        rewrite IH by (simpl in Hk; lia). reflexivity.
      * rewrite <- app_assoc, parse_chars_escape by done.
        rewrite IH by lia. reflexivity.
  - rewrite <- app_assoc, parse_chars_quote_unit.
    rewrite IH by lia. reflexivity.
Qed.

(** What [JSON.parse] reads between two quotes is what [JSON.stringify]
    wrote there. *)
Lemma parse_chars_quote_units s rest :
  parse_chars (quote_units s ++ 34 :: rest) = Some (s, rest).
Proof. by apply (parse_chars_quote_units_len (length s)). Qed.

Lemma digits_fuel_app f n acc rest :
  digits_fuel f n acc ++ rest = digits_fuel f n (acc ++ rest).
Proof.
  revert n acc. induction f as [|f IH]; intros n acc; [reflexivity|].
  cbn [digits_fuel]. destruct (n <? 10); [reflexivity|]. by rewrite IH.
Qed.

Lemma is_digit_decimal d : d < 10 → is_digit (48 + d) = true ∧ 48 + d - 48 = d.
Proof.
  intros Hd. unfold is_digit. split; [|lia].
  apply andb_true_iff. split; apply N.leb_le; lia.
Qed.

(** The digits written for a positive number start with a non-zero digit,
    and reading them back gives the number. *)
Lemma read_digits_fuel f n acc :
  0 < n → n < 2 ^ N.of_nat f →
  ∃ d tl, digits_fuel f n acc = (48 + d) :: tl ∧ 1 <= d ∧ d < 10
          ∧ read_digits d tl = read_digits n acc.
Proof.
  revert n acc. induction f as [|f IH]; intros n acc Hpos Hlt.
  { simpl in Hlt. lia. }
  cbn [digits_fuel]. destruct (N.ltb_spec n 10) as [Hs|Hs].
  - exists n, acc. rewrite N.mod_small by done. repeat split; (done || lia).
  - assert (n / 10 < 2 ^ N.of_nat f) as Hq.
    { apply N.Div0.div_lt_upper_bound.
      rewrite Nat2N.inj_succ, N.pow_succ_r' in Hlt. lia. }
    assert (0 < n / 10) as Hq0.
    { apply N.div_str_pos. lia. }
    destruct (IH (n / 10) ((48 + n mod 10) :: acc) Hq0 Hq)
      as (d & tl & -> & ? & ? & Hr).
    exists d, tl. repeat split; try done.
    rewrite Hr. cbn [read_digits].
    destruct (is_digit_decimal (n mod 10)) as [-> ->].
    { apply N.mod_lt. lia. }
    f_equal. pose proof (N.div_mod n 10 ltac:(lia)). lia.
Qed.

Lemma N_to_units_pos n rest :
  0 < n →
  ∃ d tl, N_to_units n ++ rest = (48 + d) :: tl ∧ 1 <= d ∧ d < 10
          ∧ read_digits d tl = read_digits n rest.
Proof.
  intros Hn. unfold N_to_units. rewrite digits_fuel_app. cbn [app].
  apply read_digits_fuel; [done|].
  rewrite Nat2N.inj_succ, N2Nat.id. by apply N.log2_spec.
Qed.

Lemma parse_number_tail n c rest :
  ends_number c = true →
  read_digits n (c :: rest) = (n, c :: rest)
  ∧ parse_frac n (c :: rest) = Some (n, O, c :: rest)
  ∧ parse_exp (c :: rest) = Some (0%Z, c :: rest).
Proof.
  unfold ends_number. intros H. apply negb_true_iff in H.
  repeat (apply orb_false_iff in H as [H ?]).
  cbn [read_digits parse_frac parse_exp]. rewrite H.
  replace (c =? 46) with false. replace (c =? 101) with false.
  replace (c =? 69) with false. done.
Qed.

(** An integer written by [Z_to_units] is read back as itself. *)
Lemma parse_number_Z_to_units z c rest :
  ends_number c = true →
  parse_number (Z_to_units z ++ c :: rest) = Some (JNum z 0, c :: rest).
Proof.
  intros Hc. destruct (parse_number_tail 0 c rest Hc) as (_ & Hf0 & He).
  unfold Z_to_units. destruct (Z.ltb_spec z 0) as [Hz|Hz].
  - destruct (N_to_units_pos (Z.abs_N z) (c :: rest)) as (d & tl & E & ? & ? & Hr);
      [lia|].
    cbn [app]. rewrite E. unfold parse_number.
    change (45 =? 45) with true. cbv iota beta.
    destruct (is_digit_decimal d) as [-> ->]; [done|].
    replace (48 + d =? 48) with false by (symmetry; apply N.eqb_neq; lia).
    rewrite Hr.
    destruct (parse_number_tail (Z.abs_N z) c rest Hc) as (-> & -> & _).
    rewrite He. replace (- Z.of_N (Z.abs_N z))%Z with z by lia. reflexivity.
  - destruct (decide (z = 0%Z)) as [->|Hne].
    + change (N_to_units (Z.abs_N 0)) with [48]. cbn [app].
      cbn -[parse_frac parse_exp].
      rewrite Hf0, He. reflexivity.
    + destruct (N_to_units_pos (Z.abs_N z) (c :: rest)) as (d & tl & E & ? & ? & Hr);
        [lia|].
      rewrite E. unfold parse_number.
      replace (48 + d =? 45) with false by (symmetry; apply N.eqb_neq; lia).
      cbv iota beta.
      destruct (is_digit_decimal d) as [-> ->]; [done|].
      replace (48 + d =? 48) with false by (symmetry; apply N.eqb_neq; lia).
      rewrite Hr.
      destruct (parse_number_tail (Z.abs_N z) c rest Hc) as (-> & -> & _).
      rewrite He. replace (Z.of_N (Z.abs_N z)) with z by lia. reflexivity.
Qed.

Lemma Z_to_units_head z rest :
  ∃ c0 tl, Z_to_units z ++ rest = c0 :: tl ∧ (c0 = 45 ∨ is_digit c0 = true).
Proof.
  unfold Z_to_units. destruct (z <? 0)%Z; [by eauto|].
  destruct (decide (Z.abs_N z = 0)) as [->|Hne].
  - exists 48, rest. split; [reflexivity | by right].
  - destruct (N_to_units_pos (Z.abs_N z) rest) as (d & tl & -> & ? & ? & _);
      [lia|].
    exists (48 + d), tl. split; [done|]. right. by apply is_digit_decimal.
Qed.

(** A value that starts with a minus sign or a digit is a number. *)
Lemma parse_value_number f c0 tl :
  c0 = 45 ∨ is_digit c0 = true →
  parse_value (S f) (c0 :: tl) = parse_number (c0 :: tl).
Proof.
  intros Hc.
  assert (c0 = 45 ∨ (48 <= c0 ∧ c0 <= 57)) as Hr.
  { destruct Hc as [?|Hd]; [by left|right]. unfold is_digit in Hd.
    apply andb_true_iff in Hd as [?%N.leb_le ?%N.leb_le]. done. }
  assert (∀ k, k ≠ 45 → (k < 48 ∨ 57 < k) → (c0 =? k) = false) as Hk.
  { intros k ? ?. apply N.eqb_neq. lia. }
  cbn [parse_value skip_ws]. unfold is_json_ws.
  rewrite !Hk by lia. cbn [orb].
  unfold parse_literal.
  change (units "true") with [116; 114; 117; 101].
  change (units "false") with [102; 97; 108; 115; 101].
  change (units "null") with [110; 117; 108; 108].
  cbn [strip_prefix]. rewrite !Hk by lia. reflexivity.
Qed.

Lemma parse_value_Z_to_units f z c rest :
  ends_number c = true →
  parse_value (S f) (Z_to_units z ++ c :: rest) = Some (JNum z 0, c :: rest).
Proof.
  intros Hc. destruct (Z_to_units_head z (c :: rest)) as (c0 & tl & E & H0).
  rewrite <- (parse_number_Z_to_units z c rest Hc), E.
  by apply parse_value_number.
Qed.

Lemma parse_value_quote f t rest :
  parse_value (S f) (34 :: quote_units t ++ 34 :: rest) = Some (JStr t, rest).
Proof.
  cbn [parse_value skip_ws]. change (is_json_ws 34) with false.
  change (34 =? 34) with true. cbv iota.
  by rewrite parse_chars_quote_units.
Qed.

(** One member [key : value] of an object and the separator after it. *)
Lemma parse_members_step f k vs v c rest :
  parse_value f vs = Some (v, c :: rest) →
  is_json_ws c = false →
  parse_members (S f) (34 :: quote_units k ++ 34 :: 58 :: vs)
  = if c =? 44 then cons_fst (k, v) (parse_members f rest)
    else if c =? 125 then Some ([(k, v)], rest) else None.
Proof.
  intros Hv Hc. cbn [parse_members skip_ws].
  change (is_json_ws 34) with false. change (34 =? 34) with true. cbv iota.
  rewrite parse_chars_quote_units. cbn [skip_ws].
  change (is_json_ws 58) with false. change (58 =? 58) with true. cbv iota.
  rewrite Hv. cbn [skip_ws]. rewrite Hc. reflexivity.
Qed.

End json_text.

(** ** The note list survives [JSON.stringify] followed by [JSON.parse] *)

Section notes_text.

Implicit Types (n : note) (l : list note) (rest : jsstring).

Lemma stringify_note_app n rest :
  stringify_note n ++ rest
  = 123 :: 34 :: quote_units (units "id") ++ 34 :: 58 ::
      (Z_to_units (id n) ++ 44 :: 34 :: quote_units (units "text") ++ 34 :: 58 ::
         (34 :: quote_units (text n) ++ 34 :: 125 :: rest)).
Proof.
  unfold stringify_note, quote. cbn [app].
  repeat (rewrite <- ?app_assoc; cbn [app]; f_equal).
Qed.

Lemma parse_value_note f n rest :
  (4 ≤ f)%nat →
  parse_value f (stringify_note n ++ rest) = Some (note_to_json n, rest).
Proof.
  intros Hf. do 4 (destruct f as [|f]; [lia|]). clear Hf.
  rewrite stringify_note_app.
  cbn [parse_value skip_ws].
  change (is_json_ws 123) with false. change (is_json_ws 34) with false.
  change (123 =? 34) with false. change (123 =? 91) with false.
  change (123 =? 123) with true. change (34 =? 125) with false. cbv iota.
  rewrite (parse_members_step _ _ _ (JNum (id n) 0) 44 _
             (parse_value_Z_to_units _ _ 44 _ eq_refl) eq_refl).
  change (44 =? 44) with true. cbv iota.
  rewrite (parse_members_step _ _ _ (JStr (text n)) 125 rest
             (parse_value_quote _ _ _) eq_refl).
  reflexivity.
Qed.

Lemma stringify_elements_cons n l rest :
  stringify_elements (n :: l) ++ rest
  = stringify_note n ++
      match l with [] => rest | _ => 44 :: stringify_elements l ++ rest end.
Proof. destruct l; [reflexivity|]. cbn [stringify_elements]. by rewrite <- app_assoc. Qed.

Lemma stringify_elements_head l rest :
  l ≠ [] → ∃ tl, stringify_elements l ++ rest = 123 :: tl.
Proof.
  destruct l as [|n l]; [done|]. intros _.
  rewrite stringify_elements_cons, stringify_note_app. eauto.
Qed.

Lemma stringify_note_length n : (1 ≤ length (stringify_note n))%nat.
Proof. unfold stringify_note. cbn [app length]. lia. Qed.

Lemma stringify_elements_length l :
  (length l ≤ length (stringify_elements l))%nat.
Proof.
  induction l as [|n l IH]; [done|].
  pose proof (stringify_note_length n).
  destruct l as [|m l].
  - cbn [stringify_elements length]. lia.
  - change (stringify_elements (n :: m :: l))
      with (stringify_note n ++ [44] ++ stringify_elements (m :: l)).
    rewrite !length_app. cbn [length] in *. lia.
Qed.

Lemma parse_elements_notes l f rest :
  l ≠ [] → (length l + 4 ≤ f)%nat →
  parse_elements f (stringify_elements l ++ 93 :: rest)
  = Some (note_to_json <$> l, rest).
Proof.
  revert f. induction l as [|n l IH]; intros f Hne Hf; [done|].
  destruct f as [|f]; [lia|]. cbn [length] in Hf.
  rewrite stringify_elements_cons. cbn [parse_elements].
  rewrite parse_value_note by lia.
  destruct l as [|n' l'].
  - reflexivity.
  - cbn [skip_ws]. change (is_json_ws 44) with false.
    change (44 =? 44) with true. cbv iota.
    rewrite IH by (done || (cbn [length] in *; lia)). reflexivity.
Qed.

Lemma parse_value_array f r :
  parse_value (S f) (91 :: r)
  = match skip_ws r with
    | d :: r' =>
        if d =? 93 then Some (JArr [], r')
        else match parse_elements f r with
             | Some (xs, r'') => Some (JArr xs, r'')
             | None => None
             end
    | [] => None
    end.
Proof. reflexivity. Qed.

Lemma parse_value_notes f l rest :
  (length l + 5 ≤ f)%nat →
  parse_value f (JSON_stringify l ++ rest) = Some (notes_to_json l, rest).
Proof.
  intros Hf. destruct f as [|f]; [lia|].
  unfold JSON_stringify. cbn [app]. rewrite <- app_assoc. cbn [app].
  rewrite parse_value_array.
  destruct (decide (l = [])) as [->|Hne]; [reflexivity|].
  rewrite parse_elements_notes by (done || lia).
  destruct (stringify_elements_head l (93 :: rest) Hne) as [tl ->].
  reflexivity.
Qed.

(** [JSON.parse(JSON.stringify(notes))] rebuilds the list. *)
Lemma JSON_parse_stringify l :
  JSON_parse (JSON_stringify l) = Some (notes_to_json l).
Proof.
  unfold JSON_parse.
  rewrite <- (app_nil_r (JSON_stringify l)) at 2.
  rewrite parse_value_notes; [reflexivity|].
  unfold JSON_stringify. rewrite !length_app. cbn [length].
  pose proof (stringify_elements_length l). lia.
Qed.

Lemma json_to_note_to_json n : json_to_note (note_to_json n) = Some n.
Proof.
  destruct n as [i t]. unfold note_to_json, json_to_note. cbn [id text].
  rewrite decide_True by done. unfold integer_of. cbn [Z.leb Z.compare].
  by rewrite Z.pow_0_r, Z.mul_1_r.
Qed.

Lemma json_to_notes_to_json l : json_to_notes (notes_to_json l) = Some l.
Proof.
  unfold json_to_notes, notes_to_json. apply mapM_Some.
  induction l as [|n l IH]; constructor; [apply json_to_note_to_json | done].
Qed.

Lemma notes_to_json_inj l1 l2 : notes_to_json l1 = notes_to_json l2 → l1 = l2.
Proof.
  intros E. apply (f_equal json_to_notes) in E.
  rewrite !json_to_notes_to_json in E. congruence.
Qed.

End notes_text.

(** ** The parser never runs short of fuel *)

Section parser_fuel.

Implicit Types (s r : jsstring) (f : nat).

Lemma cons_fst_Some {A B} (a : A) (x : option (list A * B)) l b :
  cons_fst a x = Some (l, b) → ∃ l', x = Some (l', b) ∧ l = a :: l'.
Proof. destruct x as [[l' b']|]; [|done]. intros [= <- <-]. eauto. Qed.

Lemma skip_ws_length s : (length (skip_ws s) ≤ length s)%nat.
Proof.
  induction s as [|c s IH]; [done|]. cbn [skip_ws].
  destruct (is_json_ws c); cbn [length]; lia.
Qed.

Lemma parse_chars_length_le (n : nat) s k r :
  (length s ≤ n)%nat → parse_chars s = Some (k, r) → (length r < length s)%nat.
Proof.
  revert s k r. induction n as [|n IH]; intros s k r Hn H.
  { destruct s; [done | cbn in Hn; lia]. }
  destruct s as [|c s]; [done|]. cbn [parse_chars length] in *.
  repeat case_match; simplify_eq; cbn [length] in *;
    try lia;
    try (apply cons_fst_Some in H as (? & H & _);
         apply IH in H; cbn [length] in *; lia).
Qed.

Lemma parse_chars_length s k r :
  parse_chars s = Some (k, r) → (length r < length s)%nat.
Proof. by apply (parse_chars_length_le (length s)). Qed.

Lemma read_digits_length (a : N) s : (length (read_digits a s).2 ≤ length s)%nat.
Proof.
  revert a. induction s as [|c s IH]; intros a; [done|]. cbn [read_digits].
  destruct (is_digit c); cbn [length snd]; [|done].
  specialize (IH (a * 10 + (c - 48))). lia.
Qed.

Lemma read_digits1_length (a : N) s x r :
  read_digits1 a s = Some (x, r) → (length r ≤ length s)%nat.
Proof.
  unfold read_digits1. intros H. repeat case_match; simplify_eq.
  match goal with H : read_digits ?a ?s = _ |- _ =>
    pose proof (read_digits_length a s) as Hl; rewrite H in Hl
  end. done.
Qed.

Lemma parse_frac_length (ip : N) s m fd r :
  parse_frac ip s = Some (m, fd, r) → (length r ≤ length s)%nat.
Proof.
  unfold parse_frac. intros H. repeat case_match; simplify_eq; try done.
  match goal with H : read_digits1 _ _ = _ |- _ =>
    apply read_digits1_length in H
  end. cbn [length]. lia.
Qed.

Lemma parse_exp_length s e r :
  parse_exp s = Some (e, r) → (length r ≤ length s)%nat.
Proof.
  unfold parse_exp. intros H. repeat case_match; simplify_eq; try done;
    match goal with H : read_digits1 _ _ = _ |- _ =>
      apply read_digits1_length in H
    end; cbn [length] in *; lia.
Qed.

Lemma parse_number_length s v r :
  parse_number s = Some (v, r) → (length r ≤ length s)%nat.
Proof.
  unfold parse_number. intros H. repeat case_match; simplify_eq;
    repeat match goal with
    | H : parse_frac _ _ = _ |- _ => apply parse_frac_length in H
    | H : parse_exp _ = _ |- _ => apply parse_exp_length in H
    | H : read_digits ?a ?s = _ |- _ =>
        pose proof (read_digits_length a s) as Hl; rewrite H in Hl; clear H
    end; cbn [length snd] in *; lia.
Qed.

Lemma strip_prefix_length (p : jsstring) s r :
  strip_prefix p s = Some r → (length r ≤ length s)%nat.
Proof.
  revert s. induction p as [|a p IH]; intros s H; cbn [strip_prefix] in H.
  - by simplify_eq.
  - repeat case_match; simplify_eq. apply IH in H. cbn [length]. lia.
Qed.

Lemma parse_literal_length s v r :
  parse_literal s = Some (v, r) → (length r ≤ length s)%nat.
Proof.
  unfold parse_literal. intros H. repeat case_match; simplify_eq;
    try (by eapply strip_prefix_length); by eapply parse_number_length.
Qed.

Ltac length_facts :=
  repeat match goal with
  | H : skip_ws ?s = _ |- _ =>
      let Hl := fresh "Hl" in
      pose proof (skip_ws_length s) as Hl; rewrite H in Hl; clear H
  | H : parse_chars _ = Some _ |- _ => apply parse_chars_length in H
  | H : parse_literal _ = Some _ |- _ => apply parse_literal_length in H
  | H : cons_fst _ _ = Some _ |- _ => apply cons_fst_Some in H as (? & H & _)
  end.

(** Parsing never makes the text longer. *)
Lemma parse_length f :
  (∀ s v r, parse_value f s = Some (v, r) → (length r ≤ length s)%nat)
  ∧ (∀ s xs r, parse_elements f s = Some (xs, r) → (length r ≤ length s)%nat)
  ∧ (∀ s ms r, parse_members f s = Some (ms, r) → (length r ≤ length s)%nat).
Proof.
  induction f as [|f (IHv & IHe & IHm)]; [done|].
  split; [|split].
  - intros s v r H. cbn [parse_value] in H.
    repeat case_match; simplify_eq; length_facts;
      repeat match goal with
      | H : parse_elements f _ = Some _ |- _ => apply IHe in H
      | H : parse_members f _ = Some _ |- _ => apply IHm in H
      end; cbn [length] in *; lia.
  - intros s xs r H. cbn [parse_elements] in H.
    repeat case_match; simplify_eq; length_facts;
      repeat match goal with
      | H : parse_value f _ = Some _ |- _ => apply IHv in H
      | H : parse_elements f _ = Some _ |- _ => apply IHe in H
      end; cbn [length] in *; lia.
  - intros s ms r H. cbn [parse_members] in H.
    repeat case_match; simplify_eq; length_facts;
      repeat match goal with
      | H : parse_value f _ = Some _ |- _ => apply IHv in H
      | H : parse_members f _ = Some _ |- _ => apply IHm in H
      end; cbn [length] in *; lia.
Qed.

(** With fuel for twice the length of the text, one more unit changes
    nothing. *)
Lemma parse_fuel_step f :
  (∀ s, (2 * length s ≤ f)%nat → parse_value f s = parse_value (S f) s)
  ∧ (∀ s, (2 * length s + 1 ≤ f)%nat →
       parse_elements f s = parse_elements (S f) s)
  ∧ (∀ s, (2 * length s + 1 ≤ f)%nat →
       parse_members f s = parse_members (S f) s).
Proof.
  induction f as [|g (IHv & IHe & IHm)].
  { split; [|split]; intros s Hs; [|lia|lia]. destruct s; [done|]. cbn [length] in Hs. lia. }
  split; [|split]; intros s Hs.
  - cbn [parse_value]. pose proof (skip_ws_length s).
    destruct (skip_ws s) as [|c r]; [done|]. cbn [length] in *.
    destruct (c =? 34); [done|].
    destruct (c =? 91).
    { destruct (skip_ws r) as [|d r']; [done|]. destruct (d =? 93); [done|].
      by rewrite (IHe r) by lia. }
    destruct (c =? 123); [|done].
    destruct (skip_ws r) as [|d r']; [done|]. destruct (d =? 125); [done|].
    by rewrite (IHm r) by lia.
  - cbn [parse_elements]. rewrite <- (IHv s) by lia.
    destruct (parse_value g s) as [[v r]|] eqn:Ev; [|done].
    apply parse_length in Ev. pose proof (skip_ws_length r).
    destruct (skip_ws r) as [|c r']; [done|]. cbn [length] in *.
    destruct (c =? 44); [|done]. by rewrite (IHe r') by lia.
  - cbn [parse_members]. pose proof (skip_ws_length s).
    destruct (skip_ws s) as [|q r0]; [done|]. cbn [length] in *.
    destruct (q =? 34); [|done].
    destruct (parse_chars r0) as [[k r1]|] eqn:Ek; [|done].
    apply parse_chars_length in Ek. pose proof (skip_ws_length r1).
    destruct (skip_ws r1) as [|c r2]; [done|]. cbn [length] in *.
    destruct (c =? 58); [|done]. rewrite <- (IHv r2) by lia.
    destruct (parse_value g r2) as [[v r3]|] eqn:Ev; [|done].
    apply parse_length in Ev. pose proof (skip_ws_length r3).
    destruct (skip_ws r3) as [|d r4]; [done|]. cbn [length] in *.
    destruct (d =? 44); [|done]. by rewrite (IHm r4) by lia.
Qed.

(** The fuel [JSON_parse] gives is as good as any larger amount: a [None]
    is a text that is not JSON, never a parser that gave up. *)
Lemma parse_value_fuel f s :
  (2 * length s + 2 ≤ f)%nat →
  parse_value f s = parse_value (2 * length s + 2) s.
Proof.
  intros Hf. replace f with ((f - (2 * length s + 2)) + (2 * length s + 2))%nat by lia.
  induction (f - (2 * length s + 2))%nat as [|k IH]; [done|].
  cbn [Nat.add]. rewrite <- IH. symmetry. apply parse_fuel_step. lia.
Qed.

End parser_fuel.

(** ** Rendering *)

Section render_facts.

Implicit Types (w : world).

Lemma render_state w :
  notes (render w) = notes w ∧ notes_ref (render w) = notes_ref w
  ∧ input (render w) = input w ∧ editId (render w) = editId w
  ∧ sync (render w) = sync w ∧ debounceTimeout (render w) = debounceTimeout w
  ∧ now (render w) = now w ∧ timers (render w) = timers w
  ∧ next_tid (render w) = next_tid w ∧ storage (render w) = storage w
  ∧ fired (render w) = fired w.
Proof.
  unfold render, useFetch. destruct (decide _); [done|].
  destruct (negb (sync w)); done.
Qed.

Lemma render_rendered w : rendered (render w).
Proof.
  unfold rendered, render, useFetch. destruct (decide _) as [E|E]; [done|].
  destruct (negb (sync w)); reflexivity.
Qed.

Lemma render_idle w : rendered w → render w = w.
Proof. unfold rendered, render. intros ->. by rewrite decide_True. Qed.

(** A render with the flag down posts nothing. *)
Lemma render_quiet w : sync w = false → sent (render w) = sent w.
Proof.
  unfold render, useFetch. intros ->. by destruct (decide _).
Qed.

(** A render after the stored array was replaced, with the flag up, posts
    the new list once. *)
Lemma render_posts w r b :
  effect_deps w = Some (r, b) → (r < notes_ref w)%nat → sync w = true →
  sent (render w) = sent w ++ [post (notes w)].
Proof.
  unfold render, useFetch. intros -> Hr ->.
  rewrite decide_False by (intros [= ? _]; lia). reflexivity.
Qed.

End render_facts.

Lemma falsy_false (s : jsstring) : s ≠ [] → falsy s = false.
Proof. by destruct s. Qed.

Lemma falsy_true (s : jsstring) : s = [] → falsy s = true.
Proof. by intros ->. Qed.

(** [trim] leaves nothing exactly when every code unit is white space. *)
Lemma trimStart_nil (s : jsstring) : trimStart s = [] ↔ Forall (λ c, is_white c = true) s.
Proof.
  induction s as [|c r IH]; [by split|]. cbn [trimStart].
  destruct (is_white c) eqn:E.
  - rewrite IH. split; [by constructor | by inversion 1].
  - split; [done|]. inversion 1; congruence.
Qed.

Lemma trimStart_head (s : jsstring) c r : trimStart s = c :: r → is_white c = false.
Proof.
  induction s as [|d s IH]; [done|]. cbn [trimStart].
  destruct (is_white d) eqn:E; [done|]. by intros [= <- _].
Qed.

Lemma trim_nil (s : jsstring) : trim s = [] ↔ Forall (λ c, is_white c = true) s.
Proof.
  rewrite <- trimStart_nil. unfold trim, trimEnd. split.
  - intros H. apply (f_equal reverse) in H. rewrite reverse_involutive in H.
    change (reverse []) with (@nil N) in H. apply trimStart_nil in H.
    rewrite Forall_reverse in H.
    destruct (trimStart s) as [|c r] eqn:E; [done|].
    apply trimStart_head in E. inversion H as [|? ? Hc _]. congruence.
  - by intros ->.
Qed.

(** ** The note list under the three mutations *)

Section mutations.

Implicit Types (w : world) (X : Z).

(** What [handleAddOrEdit] leaves once the guard has let the input through. *)
Lemma handleAddOrEdit_accepts w :
  trim (input w) ≠ [] →
  handleAddOrEdit w
  = setTimeout cb_setSyncFalse 500 (setSync true (setInput []
      match editId w with
      | Some e =>
          setEditId None
            (setNotes
               (λ prev, (λ n, if decide (id n = e) then Note (id n) (input w) else n)
                          <$> prev) w)
      | None => setNotes (λ prev, prev ++ [Note (now w) (input w)]) w
      end)).
Proof. intros H. unfold handleAddOrEdit. by rewrite falsy_false. Qed.

Lemma handleAddOrEdit_create w :
  trim (input w) ≠ [] → editId w = None →
  notes (handleAddOrEdit w) = notes w ++ [Note (now w) (input w)]
  ∧ editId (handleAddOrEdit w) = None.
Proof.
  intros Hs He. rewrite handleAddOrEdit_accepts by done. by rewrite He.
Qed.

Lemma handleAddOrEdit_edit w X :
  trim (input w) ≠ [] → editId w = Some X →
  notes (handleAddOrEdit w)
  = (λ n, if decide (id n = X) then Note (id n) (input w) else n) <$> notes w
  ∧ editId (handleAddOrEdit w) = None
  ∧ input (handleAddOrEdit w) = []
  ∧ sync (handleAddOrEdit w) = true
  ∧ timers (handleAddOrEdit w)
    = timers w ++ [Timer (next_tid w) (now w + 500) cb_setSyncFalse].
Proof.
  intros Hs He. rewrite handleAddOrEdit_accepts by done. by rewrite He.
Qed.

Lemma handleAddOrEdit_bookkeeping w :
  trim (input w) ≠ [] →
  notes_ref (handleAddOrEdit w) = S (notes_ref w)
  ∧ sync (handleAddOrEdit w) = true
  ∧ input (handleAddOrEdit w) = []
  ∧ effect_deps (handleAddOrEdit w) = effect_deps w
  ∧ sent (handleAddOrEdit w) = sent w
  ∧ timers (handleAddOrEdit w)
    = timers w ++ [Timer (next_tid w) (now w + 500) cb_setSyncFalse].
Proof.
  intros Hs. rewrite handleAddOrEdit_accepts by done. by destruct (editId w).
Qed.

(** The render after a submit that passed the guard posts the new list. *)
Lemma submit_posts w :
  trim (input w) ≠ [] → rendered w →
  sent (render (handleAddOrEdit w)) = sent w ++ [post (notes (handleAddOrEdit w))].
Proof.
  intros Hs Hr.
  destruct (handleAddOrEdit_bookkeeping w Hs) as (En & Esy & _ & Ed & Es & _).
  rewrite (render_posts _ (notes_ref w) (sync w));
    [by rewrite Es | by rewrite Ed | lia | done].
Qed.

(** Replacing the text of the notes with an id no note has changes nothing. *)
Lemma edit_missing_id (l : list note) X (s : jsstring) :
  (∀ n, n ∈ l → id n ≠ X) →
  (λ n, if decide (id n = X) then Note (id n) s else n) <$> l = l.
Proof.
  intros H. induction l as [|n l IH]; [done|]. cbn [fmap list_fmap].
  rewrite decide_False by (apply H; left).
  f_equal. apply IH. intros m Hm. apply H. by right.
Qed.

(** C1: in create mode a submit with input that is not blank appends exactly
    one note to the end of the list; its text is the committed input and its
    id is the current timestamp, which differs from every id in the list as
    long as no note carries that timestamp already. *)
Theorem create_appends_one_fresh_note w :
  trim (input w) ≠ [] →
  editId w = None →
  (∀ n, n ∈ notes w → id n ≠ now w) →
  ∃ w' new,
    dispatch Submit w = Ok w'
    ∧ notes w' = notes w ++ [new]
    ∧ length (notes w') = S (length (notes w))
    ∧ text new = input w
    ∧ id new = now w
    ∧ id new ∉ id <$> notes w.
Proof.
  intros Hs He Hfresh.
  exists (render (handleAddOrEdit w)), (Note (now w) (input w)).
  destruct (render_state (handleAddOrEdit w)) as (-> & _).
  destruct (handleAddOrEdit_create w Hs He) as [-> _].
  split; [done|]. split; [done|]. rewrite length_app. cbn [length id text].
  split; [lia|]. split; [done|]. split; [done|].
  intros (n & E & Hn)%list_elem_of_fmap. by apply (Hfresh n).
Qed.

Lemma create_appends_one_fresh_note_witness :
  ∃ w' new,
    dispatch Submit (world_of [Note 5 [97]] [98] None 7) = Ok w'
    ∧ notes w' = [Note 5 [97]] ++ [new]
    ∧ length (notes w') = 2%nat
    ∧ text new = [98] ∧ id new = 7%Z ∧ id new ∉ id <$> [Note 5 [97]].
Proof.
  apply (create_appends_one_fresh_note (world_of [Note 5 [97]] [98] None 7)).
  - vm_compute. discriminate.
  - reflexivity.
  - intros n ->%list_elem_of_singleton. vm_compute. discriminate.
Defined.

(** C2: in edit mode for an id the list holds, a submit with input that is
    not blank keeps the length of the list, gives every note with that id
    the committed input as its text, leaves every other note as it was and
    where it was, and leaves edit mode. *)
Theorem edit_replaces_text_in_place w X :
  trim (input w) ≠ [] →
  editId w = Some X →
  (∃ n, n ∈ notes w ∧ id n = X) →
  ∃ w',
    dispatch Submit w = Ok w'
    ∧ length (notes w') = length (notes w)
    ∧ (∀ i n, notes w !! i = Some n →
         notes w' !! i = Some (if decide (id n = X) then Note X (input w) else n))
    ∧ (∃ n', n' ∈ notes w' ∧ id n' = X ∧ text n' = input w)
    ∧ id <$> notes w' = id <$> notes w
    ∧ editId w' = None.
Proof.
  intros Hs He (n0 & Hn0 & Hid).
  exists (render (handleAddOrEdit w)).
  destruct (render_state (handleAddOrEdit w)) as (-> & _ & _ & -> & _).
  destruct (handleAddOrEdit_edit w X Hs He) as (-> & -> & _).
  split; [done|]. split; [by rewrite length_fmap|].
  assert (∀ n, (if decide (id n = X) then Note (id n) (input w) else n)
               = (if decide (id n = X) then Note X (input w) else n)) as Hsame.
  { intros n. by destruct (decide _) as [->|]. }
  split; [|split; [|split]].
  - intros i n Hi. rewrite list_lookup_fmap, Hi. cbn. by rewrite Hsame.
  - exists (Note X (input w)). split; [|done].
    apply list_elem_of_fmap. exists n0. split; [|done].
    by rewrite Hsame, decide_True.
  - rewrite <- list_fmap_compose. apply list_fmap_ext. intros _ n _. cbn.
    by destruct (decide _).
  - done.
Qed.

Lemma edit_replaces_text_in_place_witness :
  ∃ w',
    dispatch Submit (world_of [Note 5 [97]; Note 6 [99]] [98] (Some 5%Z) 7) = Ok w'
    ∧ length (notes w') = 2%nat
    ∧ (∀ i n, [Note 5 [97]; Note 6 [99]] !! i = Some n →
         notes w' !! i = Some (if decide (id n = 5%Z) then Note 5 [98] else n))
    ∧ (∃ n', n' ∈ notes w' ∧ id n' = 5%Z ∧ text n' = [98])
    ∧ id <$> notes w' = [5%Z; 6%Z]
    ∧ editId w' = None.
Proof.
  apply (edit_replaces_text_in_place
           (world_of [Note 5 [97]; Note 6 [99]] [98] (Some 5%Z) 7) 5).
  - vm_compute. discriminate.
  - reflexivity.
  - exists (Note 5 [97]). split; [left | reflexivity].
Defined.

(** C6: a submit with blank input does nothing at all, in create mode and in
    edit mode alike: the handler returns at its guard, nothing is thrown, and
    the list, its length and every other part of the state stay as they
    were. *)
Theorem blank_submit_is_noop w :
  trim (input w) = [] →
  handleAddOrEdit w = w
  ∧ notes (handleAddOrEdit w) = notes w
  ∧ length (notes (handleAddOrEdit w)) = length (notes w)
  ∧ editId (handleAddOrEdit w) = editId w
  ∧ (∃ w', dispatch Submit w = Ok w' ∧ notes w' = notes w
           ∧ (rendered w → w' = w)).
Proof.
  intros Hs. assert (handleAddOrEdit w = w) as E.
  { unfold handleAddOrEdit. by rewrite falsy_true. }
  rewrite E. repeat split; try done.
  exists (render w). cbn [dispatch]. rewrite E.
  split; [done|]. split; [apply render_state | apply render_idle].
Qed.

Lemma blank_submit_is_noop_witness :
  let w := world_of [Note 5 [97]] [32; 9; 160] (Some 5%Z) 7 in
  handleAddOrEdit w = w
  ∧ notes (handleAddOrEdit w) = notes w
  ∧ length (notes (handleAddOrEdit w)) = length (notes w)
  ∧ editId (handleAddOrEdit w) = editId w
  ∧ (∃ w', dispatch Submit w = Ok w' ∧ notes w' = notes w
           ∧ (rendered w → w' = w)).
Proof.
  apply (blank_submit_is_noop (world_of [Note 5 [97]] [32; 9; 160] (Some 5%Z) 7)).
  reflexivity.
Defined.

(** C9: asking to edit an id no note has is not guarded: [find] comes back
    empty, reading the text of the missing note throws, and the handler ends
    in that error instead of doing nothing. *)
Theorem edit_of_missing_id_throws w X :
  (∀ n, n ∈ notes w → id n ≠ X) →
  List.find (λ n, bool_decide (id n = X)) (notes w) = None
  ∧ handleEdit X w = Throw TypeError
  ∧ dispatch (ClickEdit X) w = Throw TypeError.
Proof.
  intros H.
  assert (List.find (λ n, bool_decide (id n = X)) (notes w) = None) as E.
  { induction (notes w) as [|n l IH]; [done|]. cbn [List.find].
    rewrite bool_decide_eq_false_2 by (apply H; left).
    apply IH. intros m Hm. apply H. by right. }
  unfold dispatch, handleEdit. by rewrite E.
Qed.

Lemma edit_of_missing_id_throws_witness :
  let w := world_of [Note 5 [97]] [] None 7 in
  List.find (λ n, bool_decide (id n = 9%Z)) (notes w) = None
  ∧ handleEdit 9 w = Throw TypeError
  ∧ dispatch (ClickEdit 9) w = Throw TypeError.
Proof.
  apply (edit_of_missing_id_throws (world_of [Note 5 [97]] [] None 7) 9).
  intros n ->%list_elem_of_singleton. vm_compute. discriminate.
Defined.

Lemma handleDelete_state w X :
  notes (handleDelete X w) = filter (λ n, id n ≠ X) (notes w)
  ∧ notes_ref (handleDelete X w) = S (notes_ref w)
  ∧ sync (handleDelete X w) = true
  ∧ editId (handleDelete X w) = editId w
  ∧ input (handleDelete X w) = input w
  ∧ effect_deps (handleDelete X w) = effect_deps w
  ∧ sent (handleDelete X w) = sent w
  ∧ timers (handleDelete X w)
    = timers w ++ [Timer (next_tid w) (now w + 500) cb_setSyncFalse].
Proof. done. Qed.

Lemma filter_split_length (l : list note) X :
  length l
  = (length (filter (λ n, id n ≠ X) l) + length (filter (λ n, id n = X) l))%nat.
Proof.
  induction l as [|n l IH]; [done|]. rewrite !filter_cons.
  destruct (decide (id n = X)) as [E|E].
  - rewrite decide_False by (by intros ?). cbn [length]. lia.
  - rewrite decide_True by done. cbn [length]. lia.
Qed.

Lemma filter_absent_id (l : list note) X :
  X ∉ id <$> l → filter (λ n, id n = X) l = [] ∧ filter (λ n, id n ≠ X) l = l.
Proof.
  induction l as [|n l IH]; [done|]. cbn [fmap list_fmap].
  intros [Hn Hl]%not_elem_of_cons. destruct (IH Hl) as [E1 E2].
  rewrite filter_cons_False, filter_cons_True by congruence.
  by rewrite E1, E2.
Qed.

Lemma filter_unique_id (l : list note) X :
  NoDup (id <$> l) → X ∈ id <$> l → length (filter (λ n, id n = X) l) = 1%nat.
Proof.
  induction l as [|n l IH]; cbn [fmap list_fmap].
  - by intros _ ?%elem_of_nil.
  - intros [Hn Hl]%NoDup_cons HX. rewrite filter_cons.
    destruct (decide (id n = X)) as [E|E].
    + subst X. destruct (filter_absent_id l (id n) Hn) as [-> _]. done.
    + apply IH; [done|]. apply elem_of_cons in HX as [?|?]; congruence.
Qed.

(** C3, as stated, fails where two notes carry the same id (two notes made
    in the same millisecond, here as the component finds them in its slot
    when it mounts): the id is present, and deleting it shortens the list by
    two. *)
Lemma delete_of_shared_id_drops_two :
  mount twins_storage 7 = Some twins
  ∧ (∃ n, n ∈ notes twins ∧ id n = 1%Z)
  ∧ ∃ w', dispatch (ClickDelete 1) twins = Ok w'
          ∧ length (notes twins) = 2%nat
          ∧ length (notes w') = 0%nat
          ∧ length (notes w') ≠ (length (notes twins) - 1)%nat.
Proof.
  split; [by vm_compute|]. split.
  - exists (Note 1 [97]). split; [left | reflexivity].
  - eexists. split; [reflexivity|]. vm_compute. repeat split. discriminate.
Qed.

(** C3, amended: deleting an id leaves no note with that id, keeps every
    other note, and keeps the notes that stay in their order; the list gets
    shorter by the number of notes that carried the id, which is one when
    the ids of the list are distinct and the id is present, and nothing
    when the id is absent. *)
Theorem delete_removes_every_note_with_id w X :
  ∃ w',
    dispatch (ClickDelete X) w = Ok w'
    ∧ (∀ n, n ∈ notes w' → id n ≠ X)
    ∧ (∀ n, n ∈ notes w → id n ≠ X → n ∈ notes w')
    ∧ notes w' `sublist_of` notes w
    ∧ length (notes w)
      = (length (notes w') + length (filter (λ n, id n = X) (notes w)))%nat
    ∧ (NoDup (id <$> notes w) → X ∈ id <$> notes w →
       length (notes w) = S (length (notes w')))
    ∧ (X ∉ id <$> notes w → notes w' = notes w).
Proof.
  exists (render (handleDelete X w)).
  destruct (render_state (handleDelete X w)) as (-> & _).
  destruct (handleDelete_state w X) as (-> & _).
  split; [done|]. split; [|split; [|split; [|split; [|split]]]].
  - by intros n [? _]%list_elem_of_filter.
  - intros n ? ?. by apply list_elem_of_filter.
  - apply sublist_filter.
  - apply filter_split_length.
  - intros Hnd HX. rewrite (filter_split_length (notes w) X) at 1.
    rewrite filter_unique_id by done. lia.
  - intros HX. by apply filter_absent_id.
Qed.

Lemma delete_removes_every_note_with_id_witness :
  ∃ w',
    dispatch (ClickDelete 6) (world_of [Note 5 [97]; Note 6 [99]] [] None 7) = Ok w'
    ∧ length (notes (world_of [Note 5 [97]; Note 6 [99]] [] None 7))
      = S (length (notes w')).
Proof.
  destruct (delete_removes_every_note_with_id
              (world_of [Note 5 [97]; Note 6 [99]] [] None 7) 6)
    as (w' & E & _ & _ & _ & _ & Hone & _).
  exists w'. split; [exact E|]. apply Hone.
  - apply (bool_decide_unpack _). by vm_compute.
  - apply (bool_decide_unpack _). by vm_compute.
Defined.

(** C10: a submit in edit mode for an id no note has (the note under edit
    was deleted) with input that is not blank leaves the list as it was,
    leaves edit mode, clears the input, raises the flag and sets the timer
    that lowers it, and the render that follows posts the list. *)
Theorem submit_with_dangling_editId w X :
  trim (input w) ≠ [] →
  editId w = Some X →
  (∀ n, n ∈ notes w → id n ≠ X) →
  rendered w →
  ∃ w',
    dispatch Submit w = Ok w'
    ∧ notes w' = notes w
    ∧ editId w' = None
    ∧ input w' = []
    ∧ sync w' = true
    ∧ timers w' = timers w ++ [Timer (next_tid w) (now w + 500) cb_setSyncFalse]
    ∧ sent w' = sent w ++ [post (notes w)].
Proof.
  intros Hs He Hmiss Hr.
  exists (render (handleAddOrEdit w)). split; [done|].
  destruct (handleAddOrEdit_edit w X Hs He) as (En & Ee & Ei & Esy & Et).
  rewrite edit_missing_id in En by done.
  destruct (render_state (handleAddOrEdit w))
    as (-> & _ & -> & -> & -> & _ & _ & -> & _).
  repeat (split; [done|]).
  by rewrite submit_posts, En.
Qed.

Lemma submit_with_dangling_editId_witness :
  ∃ w',
    dispatch Submit (world_of [Note 5 [97]] [98] (Some 9%Z) 7) = Ok w'
    ∧ notes w' = [Note 5 [97]]
    ∧ editId w' = None
    ∧ input w' = []
    ∧ sync w' = true
    ∧ timers w' = [] ++ [Timer 1 (7 + 500) cb_setSyncFalse]
    ∧ sent w' = [] ++ [post [Note 5 [97]]].
Proof.
  apply (submit_with_dangling_editId (world_of [Note 5 [97]] [98] (Some 9%Z) 7) 9).
  - vm_compute. discriminate.
  - reflexivity.
  - intros n ->%list_elem_of_singleton. vm_compute. discriminate.
  - reflexivity.
Defined.

End mutations.

(** ** The storage slot *)

Section storage_facts.

Implicit Types (ls : localStorage) (key : jsstring) (d : json) (L : list note).

Lemma load_absent ls key d :
  items ls !! key = None → useLocalStorage_load ls key d = d.
Proof.
  unfold useLocalStorage_load, getItem. intros ->. by destruct (available ls).
Qed.

Lemma load_unparsable ls key d item :
  items ls !! key = Some item → JSON_parse item = None →
  useLocalStorage_load ls key d = d.
Proof.
  unfold useLocalStorage_load, getItem. intros -> Hp.
  destruct (available ls); [|done]. rewrite Hp. by destruct (falsy item).
Qed.

Lemma load_unavailable ls key d :
  available ls = false → useLocalStorage_load ls key d = d.
Proof. unfold useLocalStorage_load, getItem. by intros ->. Qed.

Lemma save_accepted ls key L :
  available ls = true →
  (used (<[key := JSON_stringify L]> (items ls)) ≤ quota ls)%nat →
  useLocalStorage_save ls key L
  = LocalStorage true (quota ls) (<[key := JSON_stringify L]> (items ls)).
Proof.
  unfold useLocalStorage_save, setItem. intros -> Hq. by rewrite decide_True.
Qed.

(** What an accepted write put into a slot is read back from it as the
    list that was written, with whatever default. *)
Lemma save_then_load ls key L d :
  available ls = true →
  (used (<[key := JSON_stringify L]> (items ls)) ≤ quota ls)%nat →
  useLocalStorage_load (useLocalStorage_save ls key L) key d = notes_to_json L.
Proof.
  intros Ha Hq. rewrite save_accepted by done.
  unfold useLocalStorage_load, getItem. cbn [available items].
  rewrite lookup_insert_eq. change (falsy (JSON_stringify L)) with false.
  cbv iota. by rewrite JSON_parse_stringify.
Qed.

(** After a write the storage accepted, a component that mounts on the
    storage starts from the list that was written. *)
Lemma mount_after_save ls L (t : Z) :
  available ls = true →
  (used (<[units "catatan" := JSON_stringify L]> (items ls)) ≤ quota ls)%nat →
  ∃ w, mount (useLocalStorage_save ls (units "catatan") L) t = Some w
       ∧ notes w = L.
Proof.
  intros Ha Hq. unfold mount.
  rewrite save_accepted by done.
  unfold useLocalStorage_load, getItem. cbn [available items].
  rewrite lookup_insert_eq. change (falsy (JSON_stringify L)) with false.
  cbv iota. rewrite JSON_parse_stringify, json_to_notes_to_json.
  eexists. split; [reflexivity|]. apply render_state.
Qed.

(** What [setValue] does to the list and to the storage. *)
Lemma setValue_state (key : jsstring) (f : list note → list note) (w : world) :
  notes (setValue key f w) = f (notes w)
  ∧ storage (setValue key f w)
    = useLocalStorage_save (storage w) key (f (notes w)).
Proof. done. Qed.

(** C4, as stated, fails where the storage turns the write down: here the
    quota has no room for the note.  [setValue] puts the list into the state
    and drops the exception of [setItem], so the slot still holds the empty
    list it held when the component mounted, and the load gives that. *)
Lemma refused_save_breaks_round_trip :
  mount full_storage 7 = Some world_full
  ∧ notes (setValue (units "catatan") (λ _, [Note 5 [97]]) world_full)
    = [Note 5 [97]]
  ∧ useLocalStorage_load
      (storage (setValue (units "catatan") (λ _, [Note 5 [97]]) world_full))
      (units "catatan") JNull
    = JArr []
  ∧ json_to_notes
      (useLocalStorage_load
         (storage (setValue (units "catatan") (λ _, [Note 5 [97]]) world_full))
         (units "catatan") JNull)
    ≠ Some [Note 5 [97]].
Proof.
  split; [by vm_compute|]. split; [reflexivity|].
  split; [by vm_compute|]. vm_compute. discriminate.
Qed.

(** C4, amended: when the storage takes the write (it is available and the
    text of the list fits its quota), the list [setValue] saves to a slot is
    the list a load from that slot returns, with whatever default: same ids,
    same texts, same order; and a component that mounts on the notes slot
    afterwards starts from that list. *)
Theorem setValue_then_load_round_trip w key f d :
  available (storage w) = true →
  (used (<[key := JSON_stringify (f (notes w))]> (items (storage w)))
   ≤ quota (storage w))%nat →
  notes (setValue key f w) = f (notes w)
  ∧ useLocalStorage_load (storage (setValue key f w)) key d
    = notes_to_json (f (notes w))
  ∧ json_to_notes (useLocalStorage_load (storage (setValue key f w)) key d)
    = Some (f (notes w))
  ∧ (key = units "catatan" →
     ∀ t0, ∃ w0, mount (storage (setValue key f w)) t0 = Some w0
                 ∧ notes w0 = f (notes w)).
Proof.
  intros Ha Hq. destruct (setValue_state key f w) as [En Es].
  split; [exact En|]. rewrite Es.
  rewrite (save_then_load _ key (f (notes w)) d Ha Hq).
  split; [done|]. split; [apply json_to_notes_to_json|].
  intros -> t0. by apply mount_after_save.
Qed.

Lemma setValue_then_load_round_trip_witness :
  let w := world_of [Note 1700000000000 (units "beli susu")] [] None 7 in
  let L := [Note 1700000000000 (units "beli susu");
            Note 1700000000001 [34; 92; 10]] in
  notes (setValue (units "catatan") (λ _, L) w) = L
  ∧ useLocalStorage_load (storage (setValue (units "catatan") (λ _, L) w))
      (units "catatan") JNull = notes_to_json L
  ∧ json_to_notes
      (useLocalStorage_load (storage (setValue (units "catatan") (λ _, L) w))
         (units "catatan") JNull) = Some L
  ∧ (units "catatan" = units "catatan" →
     ∀ t0, ∃ w0,
       mount (storage (setValue (units "catatan") (λ _, L) w)) t0 = Some w0
       ∧ notes w0 = L).
Proof.
  apply (setValue_then_load_round_trip
           (world_of [Note 1700000000000 (units "beli susu")] [] None 7)
           (units "catatan")
           (λ _, [Note 1700000000000 (units "beli susu");
                  Note 1700000000001 [34; 92; 10]])
           JNull).
  - reflexivity.
  - vm_compute. lia.
Defined.

(** C5: the load gives the default when the slot is absent and when its
    text is not JSON ([JSON.parse] throws and the exception is caught); a
    store that is empty gives the notes slot the empty list. *)
Theorem load_falls_back_to_default ls key d :
  (items ls !! key = None → useLocalStorage_load ls key d = d)
  ∧ (∀ item, items ls !! key = Some item → JSON_parse item = None →
       useLocalStorage_load ls key d = d)
  ∧ (items ls = ∅ →
       useLocalStorage_load ls (units "catatan") (JArr []) = JArr []
       ∧ json_to_notes (useLocalStorage_load ls (units "catatan") (JArr []))
         = Some []).
Proof.
  split; [apply load_absent|]. split; [apply load_unparsable|].
  intros He. rewrite load_absent; [done|]. by rewrite He.
Qed.

Lemma load_falls_back_to_default_witness :
  useLocalStorage_load
    (LocalStorage true 4096 {[ units "catatan" := units "[{" ]})
    (units "catatan") (JArr []) = JArr []
  ∧ useLocalStorage_load (LocalStorage true 4096 ∅) (units "catatan") (JArr [])
    = JArr [].
Proof.
  split.
  - apply (proj1 (proj2 (load_falls_back_to_default
                           (LocalStorage true 4096 {[ units "catatan" := units "[{" ]})
                           (units "catatan") (JArr []))) (units "[{")).
    + reflexivity.
    + reflexivity.
  - apply (proj1 (load_falls_back_to_default
                    (LocalStorage true 4096 ∅) (units "catatan") (JArr []))).
    reflexivity.
Defined.

(** Text that is JSON of another shape is not a parse failure: the load
    hands it over as it is. *)
Example load_of_null_text :
  useLocalStorage_load
    (LocalStorage true 4096 {[ units "catatan" := units "null" ]})
    (units "catatan") (JArr []) = JNull.
Proof. reflexivity. Qed.

(** The empty text is falsy: the default again. *)
Example load_of_empty_text :
  useLocalStorage_load
    (LocalStorage true 4096 {[ units "catatan" := [] ]})
    (units "catatan") (JArr []) = JArr [].
Proof. reflexivity. Qed.

End storage_facts.

(** ** Timers *)

Section timer_facts.

Implicit Types (w : world) (t T : timer) (D : list timer) (k : nat).

Lemma fire_state w t :
  notes (fire w t) = notes w ∧ notes_ref (fire w t) = notes_ref w
  ∧ editId (fire w t) = editId w
  ∧ debounceTimeout (fire w t) = debounceTimeout w
  ∧ now (fire w t) = now w ∧ timers (fire w t) = timers w
  ∧ next_tid (fire w t) = next_tid w
  ∧ input (fire w t)
    = match cb t with cb_setInput v => v | cb_setSyncFalse => input w end
  ∧ fired (fire w t) = fired w ++ [(now w, cb t)].
Proof.
  unfold fire.
  destruct (render_state (log_fired (cb t) (run_callback (cb t) w)))
    as (-> & -> & -> & -> & _ & -> & -> & -> & -> & _ & ->).
  by destruct (cb t).
Qed.

(** A timer that fires posts nothing, and leaves a rendered state. *)
Lemma fire_sent w t : rendered w → sent (fire w t) = sent w ∧ rendered (fire w t).
Proof.
  intros Hr. split; [|apply render_rendered]. unfold fire.
  destruct (cb t) as [v|]; cbn [run_callback].
  - by rewrite render_idle.
  - by rewrite render_quiet.
Qed.

Lemma foldl_fire_state D w :
  debounceTimeout (foldl fire w D) = debounceTimeout w
  ∧ now (foldl fire w D) = now w ∧ timers (foldl fire w D) = timers w
  ∧ notes (foldl fire w D) = notes w
  ∧ input (foldl fire w D) = apply_inputs D (input w)
  ∧ fired (foldl fire w D) = fired w ++ ((λ t, (now w, cb t)) <$> D).
Proof.
  revert w. induction D as [|t D IH]; intros w.
  { cbn. by rewrite app_nil_r. }
  cbn [foldl]. destruct (IH (fire w t)) as (-> & -> & -> & -> & -> & ->).
  destruct (fire_state w t) as (-> & _ & _ & -> & -> & -> & _ & -> & ->).
  unfold apply_inputs. cbn [foldl fmap list_fmap]. by rewrite <- app_assoc.
Qed.

Lemma foldl_fire_sent D w :
  rendered w → sent (foldl fire w D) = sent w ∧ rendered (foldl fire w D).
Proof.
  revert w. induction D as [|t D IH]; intros w Hr; [done|].
  cbn [foldl]. destruct (fire_sent w t Hr) as [<- Hr']. by apply IH.
Qed.

Lemma apply_inputs_filter D (i : jsstring) :
  apply_inputs D i = apply_inputs (filter (λ t, is_setInput (cb t)) D) i.
Proof.
  unfold apply_inputs. revert i. induction D as [|t D IH]; intros i; [done|].
  rewrite filter_cons. cbn [foldl].
  destruct (cb t) eqn:E; cbn [is_setInput].
  - rewrite decide_True by done. cbn [foldl]. by rewrite E.
  - rewrite decide_False by (by intros ?). apply IH.
Qed.

Lemma filter_swap (P Q : timer → Prop)
    `{!∀ x, Decision (P x), !∀ x, Decision (Q x)} D :
  filter P (filter Q D) = filter Q (filter P D).
Proof. rewrite !list_filter_filter. apply list_filter_iff. intros x. tauto. Qed.

(** One millisecond, seen from the input field. *)
Lemma tick_inputs w :
  now (tick w) = (now w + 1)%Z
  ∧ debounceTimeout (tick w) = debounceTimeout w
  ∧ timers (tick w) = filter (λ t, (now w + 1 < due t)%Z) (timers w)
  ∧ pending_inputs (tick w)
    = filter (λ t, (now w + 1 < due t)%Z) (pending_inputs w)
  ∧ input (tick w)
    = apply_inputs (filter (λ t, (due t ≤ now w + 1)%Z) (pending_inputs w)) (input w)
  ∧ input_commits (tick w)
    = input_commits w
      ++ ((λ t, ((now w + 1)%Z, cb t))
            <$> filter (λ t, (due t ≤ now w + 1)%Z) (pending_inputs w)).
Proof.
  unfold tick, pending_inputs, input_commits.
  match goal with |- context [foldl fire ?w1 ?D] =>
    destruct (foldl_fire_state D w1) as (-> & -> & -> & _ & -> & ->)
  end.
  cbn [set_clock now timers debounceTimeout input fired].
  repeat split; try done.
  - apply filter_swap.
  - rewrite apply_inputs_filter. f_equal. apply filter_swap.
  - rewrite filter_app. f_equal.
    rewrite (filter_swap _ (λ t, is_setInput (cb t))).
    generalize (filter (λ t, (due t ≤ now w + 1)%Z) (timers w)).
    intros D. induction D as [|t D IH]; [done|].
    rewrite filter_cons. cbn [fmap list_fmap]. rewrite filter_cons. cbn [snd].
    destruct (decide (is_setInput (cb t))); cbn [fmap list_fmap]; by rewrite IH.
Qed.

Lemma tick_sent w : rendered w → sent (tick w) = sent w ∧ rendered (tick w).
Proof.
  intros Hr. unfold tick.
  exact (foldl_fire_sent _ (set_clock _ _ w) Hr).
Qed.

Lemma ticks_sent k w : rendered w → sent (ticks k w) = sent w ∧ rendered (ticks k w).
Proof.
  revert w. induction k as [|k IH]; intros w Hr; [done|].
  cbn [ticks]. destruct (tick_sent w Hr) as [<- Hr']. by apply IH.
Qed.

End timer_facts.

(** ** The debounced input *)

Section debounce_facts.

Implicit Types (w : world) (t T : timer) (k : nat) (v : jsstring).

Lemma clearTimeout_state (o : option nat) w :
  input (clearTimeout o w) = input w ∧ fired (clearTimeout o w) = fired w
  ∧ now (clearTimeout o w) = now w ∧ next_tid (clearTimeout o w) = next_tid w
  ∧ sent (clearTimeout o w) = sent w
  ∧ effect_deps (clearTimeout o w) = effect_deps w
  ∧ notes_ref (clearTimeout o w) = notes_ref w
  ∧ sync (clearTimeout o w) = sync w
  ∧ notes (clearTimeout o w) = notes w.
Proof. by destruct o. Qed.

(** Cancelling the timer the ref names leaves no timer that would commit an
    input value. *)
Lemma clearTimeout_pending w :
  debounce_inv w →
  filter (λ t, is_setInput (cb t)) (timers (clearTimeout (debounceTimeout w) w)) = [].
Proof.
  intros Hinv.
  assert (∀ l, (∀ t, t ∈ l → ¬ is_setInput (cb t)) →
               filter (λ t, is_setInput (cb t)) l = []) as Hnone.
  { intros l Hl. induction l as [|t l IH]; [done|].
    rewrite filter_cons_False by (apply Hl; left).
    apply IH. intros t' Ht'. apply Hl. by right. }
  apply Hnone. intros t Ht Hin.
  destruct (debounceTimeout w) as [i|] eqn:E; cbn [clearTimeout timers] in Ht.
  - apply list_elem_of_filter in Ht as [Hne Ht].
    specialize (Hinv t Ht Hin). congruence.
  - specialize (Hinv t Ht Hin). congruence.
Qed.

(** A keystroke leaves exactly one timer that will commit, and commits
    nothing itself. *)
Lemma handleInput_pending w v :
  debounce_inv w →
  pending_inputs (render (handleInput v w))
  = [Timer (next_tid w) (now w + 100) (cb_setInput v)]
  ∧ input (render (handleInput v w)) = input w
  ∧ input_commits (render (handleInput v w)) = input_commits w
  ∧ now (render (handleInput v w)) = now w
  ∧ debounce_inv (render (handleInput v w)).
Proof.
  intros Hinv. unfold pending_inputs, input_commits, debounce_inv.
  destruct (render_state (handleInput v w))
    as (_ & _ & -> & _ & _ & -> & -> & -> & _ & _ & ->).
  unfold handleInput. world_simpl.
  destruct (clearTimeout_state (debounceTimeout w) w)
    as (-> & -> & -> & -> & _).
  rewrite filter_app, clearTimeout_pending by done.
  repeat split; try done.
  intros t [Ht|Ht]%elem_of_app Hin.
  - exfalso. apply (filter_nil_not_elem_of _ _ t (clearTimeout_pending w Hinv) Hin Ht).
  - apply list_elem_of_singleton in Ht as ->. done.
Qed.

Lemma tick_debounce_inv w : debounce_inv w → debounce_inv (tick w).
Proof.
  intros Hinv t Ht Hin.
  destruct (tick_inputs w) as (_ & -> & Et & _). rewrite Et in Ht.
  apply list_elem_of_filter in Ht as [_ Ht]. by apply Hinv.
Qed.

Lemma ticks_debounce_inv k w : debounce_inv w → debounce_inv (ticks k w).
Proof.
  revert w. induction k as [|k IH]; intros w Hinv; [done|].
  cbn [ticks]. by apply IH, tick_debounce_inv.
Qed.

(** With no commit pending, time changes nothing for the input. *)
Lemma ticks_idle k w :
  pending_inputs w = [] →
  pending_inputs (ticks k w) = [] ∧ input (ticks k w) = input w
  ∧ input_commits (ticks k w) = input_commits w
  ∧ now (ticks k w) = (now w + Z.of_nat k)%Z.
Proof.
  revert w. induction k as [|k IH]; intros w Hp.
  { repeat split; try done. cbn [ticks]. lia. }
  cbn [ticks]. destruct (tick_inputs w) as (En & _ & _ & Ep & Ei & Ec).
  rewrite Hp in Ep, Ei, Ec. cbn in Ep, Ei, Ec. rewrite app_nil_r in Ec.
  destruct (IH (tick w) Ep) as (-> & -> & -> & ->).
  repeat split; try done. lia.
Qed.

(** Before the pending commit is due, time changes nothing for the input. *)
Lemma ticks_waiting k w T :
  pending_inputs w = [T] → (now w + Z.of_nat k < due T)%Z →
  pending_inputs (ticks k w) = [T] ∧ input (ticks k w) = input w
  ∧ input_commits (ticks k w) = input_commits w
  ∧ now (ticks k w) = (now w + Z.of_nat k)%Z.
Proof.
  revert w. induction k as [|k IH]; intros w Hp Hd.
  { repeat split; try done. cbn [ticks]. lia. }
  cbn [ticks]. destruct (tick_inputs w) as (En & _ & _ & Ep & Ei & Ec).
  rewrite Hp in Ep, Ei, Ec.
  rewrite filter_cons_True in Ep by lia.
  rewrite filter_cons_False in Ei, Ec by lia.
  cbn in Ep, Ei, Ec. rewrite app_nil_r in Ec.
  destruct (IH (tick w) Ep) as (-> & -> & -> & ->); [lia|].
  repeat split; try done. lia.
Qed.

(** Once the pending commit is due it has run, once, at its due time. *)
Lemma ticks_firing k w T v :
  pending_inputs w = [T] → cb T = cb_setInput v →
  (now w < due T)%Z → (due T ≤ now w + Z.of_nat k)%Z →
  pending_inputs (ticks k w) = [] ∧ input (ticks k w) = v
  ∧ input_commits (ticks k w) = input_commits w ++ [(due T, cb_setInput v)].
Proof.
  revert w. induction k as [|k IH]; intros w Hp Hc Hlt Hd; [lia|].
  cbn [ticks]. destruct (tick_inputs w) as (En & _ & _ & Ep & Ei & Ec).
  rewrite Hp in Ep, Ei, Ec.
  destruct (decide (due T ≤ now w + 1)%Z) as [Hdue|Hdue].
  - rewrite filter_cons_False in Ep by lia.
    rewrite filter_cons_True in Ei, Ec by lia.
    cbn in Ep, Ei, Ec. unfold apply_inputs in Ei. cbn [foldl] in Ei.
    rewrite Hc in Ei, Ec.
    destruct (ticks_idle k (tick w) Ep) as (-> & -> & -> & _).
    rewrite Ei, Ec. repeat split; try done. do 3 f_equal. lia.
  - rewrite filter_cons_True in Ep by lia.
    rewrite filter_cons_False in Ei, Ec by lia.
    cbn in Ep, Ei, Ec. rewrite app_nil_r in Ec.
    destruct (IH (tick w) Ep Hc) as (-> & -> & ->); [lia|lia|].
    by rewrite Ec.
Qed.

(** A keystroke that comes before the pending commit is due replaces it,
    and the input stays as it was. *)
Lemma keystroke_after_pause w T v (pause : nat) :
  debounce_inv w → pending_inputs w = [T] →
  (now w + Z.of_nat pause < due T)%Z →
  ∃ i,
    pending_inputs (render (handleInput v (ticks pause w)))
    = [Timer i (now w + Z.of_nat pause + 100) (cb_setInput v)]
    ∧ input (render (handleInput v (ticks pause w))) = input w
    ∧ input_commits (render (handleInput v (ticks pause w))) = input_commits w
    ∧ now (render (handleInput v (ticks pause w))) = (now w + Z.of_nat pause)%Z
    ∧ debounce_inv (render (handleInput v (ticks pause w))).
Proof.
  intros Hinv HP Hd.
  destruct (ticks_waiting pause w T HP Hd) as (_ & I & C & N).
  destruct (handleInput_pending (ticks pause w) v (ticks_debounce_inv pause w Hinv))
    as (P' & I' & C' & N' & Hinv').
  exists (next_tid (ticks pause w)).
  rewrite P', I', C', N', I, C, N. done.
Qed.

(** C7: four keystrokes, at 0, 30, 60 and 90 ms from the first, each
    cancelling the pending timer and setting a new one of 100 ms, and then
    no more input.  Through the session and up to 189 ms the committed input
    is what it was and no commit has run; from 190 ms on it is the value of
    the last keystroke, and exactly one commit has run, at 190 ms, with that
    value. *)
Theorem debounce_commits_last_keystroke_once w v1 v2 v3 v4 :
  debounce_inv w →
  let session := [(0, v1); (30, v2); (30, v3); (30, v4)]%nat in
  let typed := keystrokes session w in
  now typed = (now w + 90)%Z
  ∧ (∀ p k, p ≠ [] → p `prefix_of` session → (k < 100)%nat →
       input (ticks k (keystrokes p w)) = input w
       ∧ input_commits (ticks k (keystrokes p w)) = input_commits w)
  ∧ (∀ k, (100 ≤ k)%nat →
       input (ticks k typed) = v4
       ∧ input_commits (ticks k typed)
         = input_commits w ++ [((now w + 190)%Z, cb_setInput v4)]).
Proof.
  intros Hinv session typed. subst typed session.
  destruct (handleInput_pending w v1 Hinv) as (P1 & I1 & C1 & N1 & Hinv1).
  set (w1 := render (handleInput v1 w)) in *.
  destruct (keystroke_after_pause w1 _ v2 30 Hinv1 P1)
    as (i2 & P2 & I2 & C2 & N2 & Hinv2); [cbn [due]; lia|].
  set (w2 := render (handleInput v2 (ticks 30 w1))) in *.
  destruct (keystroke_after_pause w2 _ v3 30 Hinv2 P2)
    as (i3 & P3 & I3 & C3 & N3 & Hinv3); [cbn [due]; lia|].
  set (w3 := render (handleInput v3 (ticks 30 w2))) in *.
  destruct (keystroke_after_pause w3 _ v4 30 Hinv3 P3)
    as (i4 & P4 & I4 & C4 & N4 & Hinv4); [cbn [due]; lia|].
  set (w4 := render (handleInput v4 (ticks 30 w3))) in *.
  assert (∀ u T k, pending_inputs u = [T] → (due T = now u + 100)%Z →
            input u = input w → input_commits u = input_commits w →
            (k < 100)%nat →
            input (ticks k u) = input w
            ∧ input_commits (ticks k u) = input_commits w) as Hquiet.
  { intros u T k HP HT HI HC Hk.
    destruct (ticks_waiting k u T HP) as (_ & -> & -> & _); [lia|done]. }
  split; [|split].
  - change (keystrokes _ w) with w4. lia.
  - intros p k Hne [rest Hp] Hk.
    destruct p as [|a1 p]; [done|]. injection Hp as <- Hp.
    destruct p as [|a2 p].
    { change (keystrokes _ w) with w1.
      apply (Hquiet w1 _ k P1); [cbn [due]; lia | congruence | congruence | lia]. }
    injection Hp as <- Hp. destruct p as [|a3 p].
    { change (keystrokes _ w) with w2.
      apply (Hquiet w2 _ k P2); [cbn [due]; lia | congruence | congruence | lia]. }
    injection Hp as <- Hp. destruct p as [|a4 p].
    { change (keystrokes _ w) with w3.
      apply (Hquiet w3 _ k P3); [cbn [due]; lia | congruence | congruence | lia]. }
    injection Hp as <- Hp. destruct p; [|done].
    change (keystrokes _ w) with w4.
    apply (Hquiet w4 _ k P4); [cbn [due]; lia | congruence | congruence | lia].
  - intros k Hk. change (keystrokes _ w) with w4.
    destruct (ticks_firing k w4 _ v4 P4 eq_refl) as (_ & -> & ->);
      [cbn [due]; lia | cbn [due]; lia |].
    split; [done|]. replace (input_commits w4) with (input_commits w) by congruence.
    cbn [due]. do 3 f_equal. lia.
Qed.

Lemma debounce_commits_last_keystroke_once_witness :
  let w := world_of [] (units "old") None 0 in
  let session :=
    [(0, units "c"); (30, units "ca"); (30, units "cat"); (30, units "cata")]%nat in
  let typed := keystrokes session w in
  now typed = 90%Z
  ∧ (∀ p k, p ≠ [] → p `prefix_of` session → (k < 100)%nat →
       input (ticks k (keystrokes p w)) = units "old"
       ∧ input_commits (ticks k (keystrokes p w)) = [])
  ∧ (∀ k, (100 ≤ k)%nat →
       input (ticks k typed) = units "cata"
       ∧ input_commits (ticks k typed) = [(190%Z, cb_setInput (units "cata"))]).
Proof.
  apply (debounce_commits_last_keystroke_once
           (world_of [] (units "old") None 0)
           (units "c") (units "ca") (units "cat") (units "cata")).
  intros t Ht. by apply elem_of_nil in Ht.
Defined.

End debounce_facts.

(** ** The notifier *)

Section notifier_facts.

Implicit Types (w : world) (X : Z) (v : jsstring).

Lemma delete_posts w X :
  rendered w →
  sent (render (handleDelete X w)) = sent w ++ [post (notes (handleDelete X w))].
Proof.
  intros Hr.
  destruct (handleDelete_state w X) as (_ & En & Es & _ & _ & Ed & Esent & _).
  rewrite (render_posts _ (notes_ref w) (sync w));
    [by rewrite Esent | by rewrite Ed | lia | done].
Qed.

Lemma handleInput_quiet w v :
  rendered w → rendered (handleInput v w) ∧ sent (handleInput v w) = sent w.
Proof.
  unfold rendered, handleInput. world_simpl.
  destruct (clearTimeout_state (debounceTimeout w) w)
    as (_ & _ & _ & _ & -> & -> & -> & -> & _).
  done.
Qed.

Lemma handleEdit_quiet w X w' :
  rendered w → handleEdit X w = Ok w' → rendered w' ∧ sent w' = sent w.
Proof.
  unfold handleEdit. intros Hr. destruct (List.find _ _); [|done].
  by intros [= <-].
Qed.

(** C8: every mutation (a submit that passes the guard, in create or in edit
    mode, and a delete) is followed by exactly one [fetch], a POST whose body
    is the serialised list as the mutation left it; the other events, and
    the time in which the flag is lowered again, send nothing; and a render
    with the flag down never sends. *)
Theorem one_post_per_mutation w :
  rendered w →
  (trim (input w) ≠ [] →
     ∃ w', dispatch Submit w = Ok w'
           ∧ sent w' = sent w ++ [post (notes w')]
           ∧ method (post (notes w')) = units "POST"
           ∧ body (post (notes w')) = JSON_stringify (notes w'))
  ∧ (∀ X, ∃ w', dispatch (ClickDelete X) w = Ok w'
                ∧ sent w' = sent w ++ [post (notes w')])
  ∧ (trim (input w) = [] → ∀ w', dispatch Submit w = Ok w' → sent w' = sent w)
  ∧ (∀ v w', dispatch (Change v) w = Ok w' → sent w' = sent w)
  ∧ (∀ X w', dispatch (ClickEdit X) w = Ok w' → sent w' = sent w)
  ∧ (∀ k, sent (ticks k w) = sent w)
  ∧ (∀ u, sync u = false → sent (render u) = sent u).
Proof.
  intros Hr. split; [|split; [|split; [|split; [|split; [|split]]]]].
  - intros Hs. exists (render (handleAddOrEdit w)). split; [done|].
    destruct (render_state (handleAddOrEdit w)) as (-> & _).
    split; [by apply submit_posts | done].
  - intros X. exists (render (handleDelete X w)). split; [done|].
    destruct (render_state (handleDelete X w)) as (-> & _).
    by apply delete_posts.
  - intros Hs w' [= <-]. unfold handleAddOrEdit. rewrite falsy_true by done.
    by rewrite render_idle.
  - intros v w' [= <-]. destruct (handleInput_quiet w v Hr) as [Hr' <-].
    by rewrite render_idle.
  - intros X w'. cbn [dispatch]. destruct (handleEdit X w) as [w1|] eqn:E; [|done].
    intros [= <-]. destruct (handleEdit_quiet w X w1 Hr E) as [Hr' <-].
    by rewrite render_idle.
  - intros k. by apply ticks_sent.
  - apply render_quiet.
Qed.

Lemma one_post_per_mutation_witness :
  let w := world_of [Note 5 [97]] [98] None 7 in
  ∃ w', dispatch Submit w = Ok w'
        ∧ sent w' = sent w ++ [post (notes w')]
        ∧ method (post (notes w')) = units "POST"
        ∧ body (post (notes w')) = JSON_stringify (notes w').
Proof.
  apply (proj1 (one_post_per_mutation (world_of [Note 5 [97]] [98] None 7) eq_refl)).
  vm_compute. discriminate.
Defined.

End notifier_facts.

Lemma render_debounce_inv (w : world) : debounce_inv w → debounce_inv (render w).
Proof.
  unfold debounce_inv.
  by destruct (render_state w) as (_ & _ & _ & _ & _ & -> & _ & -> & _).
Qed.

Lemma sync_timer_debounce_inv (w w' : world) (t : timer) :
  debounce_inv w → timers w' = timers w ++ [t] → cb t = cb_setSyncFalse →
  debounceTimeout w' = debounceTimeout w → debounce_inv w'.
Proof.
  intros Hinv Et Hc Ed t' Ht' Hin. rewrite Et in Ht'. rewrite Ed.
  apply elem_of_app in Ht' as [?|Hs]; [by apply Hinv|].
  apply list_elem_of_singleton in Hs as ->. by rewrite Hc in Hin.
Qed.

(** Every state the component reaches is rendered and has at most the one
    pending commit the ref names. *)
Lemma reachable_inv (w : world) : reachable w → rendered w ∧ debounce_inv w.
Proof.
  induction 1 as [ls t0 w Hm | e w w' _ [Hr Hinv] Hd | w _ [Hr Hinv]].
  - unfold mount in Hm. destruct (json_to_notes _) as [l|]; [|done].
    injection Hm as <-. split; [apply render_rendered|].
    apply render_debounce_inv. intros t Ht. by apply elem_of_nil in Ht.
  - destruct e as [v| |X|X]; cbn [dispatch] in Hd.
    + injection Hd as <-. split; [apply render_rendered|].
      by apply handleInput_pending.
    + injection Hd as <-. split; [apply render_rendered|].
      apply render_debounce_inv. unfold handleAddOrEdit.
      destruct (falsy (trim (input w))); [done|].
      apply (sync_timer_debounce_inv w _
               (Timer (next_tid w) (now w + 500) cb_setSyncFalse) Hinv);
        [by destruct (editId w) | done | by destruct (editId w)].
    + destruct (handleEdit X w) as [w1|] eqn:E; [|done]. injection Hd as <-.
      split; [apply render_rendered|]. apply render_debounce_inv.
      unfold handleEdit in E. destruct (List.find _ _); [|done].
      by injection E as <-.
    + injection Hd as <-. split; [apply render_rendered|].
      apply render_debounce_inv.
      by apply (sync_timer_debounce_inv w _
                  (Timer (next_tid w) (now w + 500) cb_setSyncFalse) Hinv).
  - split; [by apply tick_sent | by apply tick_debounce_inv].
Qed.

(** ** What time leaves alone, and the flag over time *)

Section time_facts.

Implicit Types (w : world) (t : timer) (D : list timer) (k : nat).

Lemma fire_keeps w t :
  storage (fire w t) = storage w
  ∧ sync (fire w t)
    = match cb t with cb_setInput _ => sync w | cb_setSyncFalse => false end.
Proof.
  unfold fire.
  destruct (render_state (log_fired (cb t) (run_callback (cb t) w)))
    as (_ & _ & _ & _ & -> & _ & _ & _ & _ & -> & _).
  by destruct (cb t).
Qed.

Lemma foldl_fire_keeps D w :
  storage (foldl fire w D) = storage w
  ∧ editId (foldl fire w D) = editId w
  ∧ next_tid (foldl fire w D) = next_tid w
  ∧ notes_ref (foldl fire w D) = notes_ref w
  ∧ sync (foldl fire w D)
    = sync w && forallb (λ t, is_setInput (cb t)) D.
Proof.
  revert w. induction D as [|t D IH]; intros w.
  { cbn. by rewrite andb_true_r. }
  cbn [foldl forallb]. destruct (IH (fire w t)) as (-> & -> & -> & -> & ->).
  destruct (fire_keeps w t) as (-> & ->).
  destruct (fire_state w t) as (_ & -> & -> & _ & _ & _ & -> & _).
  repeat split; try done.
  destruct (cb t); cbn [is_setInput andb]; [done|]. by rewrite andb_false_r.
Qed.

(** One millisecond changes neither the notes, nor the edit mode, nor the
    storage. *)
Lemma tick_keeps w :
  notes (tick w) = notes w ∧ editId (tick w) = editId w
  ∧ storage (tick w) = storage w ∧ next_tid (tick w) = next_tid w
  ∧ notes_ref (tick w) = notes_ref w.
Proof.
  unfold tick.
  match goal with |- context [foldl fire ?w1 ?D] =>
    destruct (foldl_fire_state D w1) as (_ & _ & _ & -> & _);
    destruct (foldl_fire_keeps D w1) as (-> & -> & -> & -> & _)
  end.
  done.
Qed.

Lemma ticks_keeps k w :
  notes (ticks k w) = notes w ∧ editId (ticks k w) = editId w
  ∧ storage (ticks k w) = storage w ∧ next_tid (ticks k w) = next_tid w.
Proof.
  revert w. induction k as [|k IH]; intros w; [done|]. cbn [ticks].
  destruct (IH (tick w)) as (-> & -> & -> & ->).
  by destruct (tick_keeps w) as (-> & -> & -> & -> & _).
Qed.

Lemma ticks_now k w : now (ticks k w) = (now w + Z.of_nat k)%Z.
Proof.
  revert w. induction k as [|k IH]; intros w; cbn [ticks]; [lia|].
  rewrite IH. destruct (tick_inputs w) as (-> & _). lia.
Qed.

(** The flag after one millisecond: still up when it was up and no timer
    that lowers it was due. *)
Lemma tick_sync w :
  sync (tick w)
  = sync w
    && forallb (λ t, is_setInput (cb t))
         (filter (λ t, (due t ≤ now w + 1)%Z) (timers w)).
Proof.
  unfold tick.
  match goal with |- context [foldl fire ?w1 ?D] =>
    destruct (foldl_fire_keeps D w1) as (_ & _ & _ & _ & ->)
  end.
  done.
Qed.

Lemma tick_sync_iff w :
  sync (tick w) = true
  ↔ sync w = true
    ∧ ∀ t, t ∈ timers w → ¬ is_setInput (cb t) → (now w + 1 < due t)%Z.
Proof.
  rewrite tick_sync, andb_true_iff, forallb_forall.
  split; intros [Hs H]; (split; [done|]).
  - intros t Ht Hn. destruct (decide (now w + 1 < due t)%Z) as [|Hd]; [done|].
    exfalso. apply Hn. apply Is_true_true, H, list_elem_of_In.
    apply list_elem_of_filter. split; [lia | done].
  - intros t [Hd Ht]%list_elem_of_In%list_elem_of_filter.
    destruct (is_setInput (cb t)) eqn:E; [done|].
    specialize (H t Ht). rewrite E in H. cbn in H. lia.
Qed.

(** The flag after [k + 1] milliseconds, read off the timers that are
    pending now: time never raises it, and it is down from the first moment
    a timer that lowers it is due. *)
Lemma ticks_sync_iff k w :
  sync (ticks (S k) w) = true
  ↔ sync w = true
    ∧ ∀ t, t ∈ timers w → ¬ is_setInput (cb t) →
        (now w + Z.of_nat (S k) < due t)%Z.
Proof.
  revert w. induction k as [|k IH]; intros w.
  { cbn [ticks]. apply tick_sync_iff. }
  change (ticks (S (S k)) w) with (ticks (S k) (tick w)).
  rewrite IH, tick_sync_iff.
  destruct (tick_inputs w) as (-> & _ & -> & _).
  split.
  - intros [[Hs H1] H2]. split; [done|]. intros t Ht Hn.
    specialize (H1 t Ht Hn).
    specialize (H2 t). rewrite list_elem_of_filter in H2.
    specialize (H2 (conj H1 Ht) Hn). lia.
  - intros [Hs H]. split; [split; [done|]|].
    + intros t Ht Hn. specialize (H t Ht Hn). lia.
    + intros t [_ Ht]%list_elem_of_filter Hn. specialize (H t Ht Hn). lia.
Qed.

End time_facts.

(** ** Editing through the list *)

Section edit_facts.

Implicit Types (w : world) (X : Z) (n : note) (l : list note).

Lemma render_focused w : focused (render w) = focused w.
Proof.
  unfold render, useFetch. destruct (decide _); [done|].
  by destruct (negb (sync w)).
Qed.

Lemma find_first l1 n l2 X :
  id n = X → X ∉ id <$> l1 →
  List.find (λ m, bool_decide (id m = X)) (l1 ++ n :: l2) = Some n.
Proof.
  intros Hn. induction l1 as [|m l1 IH]; cbn [app List.find fmap list_fmap].
  - intros _. by rewrite bool_decide_eq_true_2.
  - intros [Hm Hl]%not_elem_of_cons.
    rewrite bool_decide_eq_false_2 by congruence. by apply IH.
Qed.

Lemma find_present l X n :
  n ∈ l → id n = X →
  ∃ m, List.find (λ m, bool_decide (id m = X)) l = Some m ∧ m ∈ l ∧ id m = X.
Proof.
  intros Hn Hid. induction l as [|a l IH]; [by apply elem_of_nil in Hn|].
  cbn [List.find]. destruct (decide (id a = X)) as [Ha|Ha].
  - rewrite bool_decide_eq_true_2 by done. exists a. split; [done|].
    split; [left | done].
  - rewrite bool_decide_eq_false_2 by done.
    apply elem_of_cons in Hn as [->|Hn]; [done|].
    destruct (IH Hn) as (m & E & Hm & Hi). exists m. split; [done|].
    split; [by right | done].
Qed.

Lemma unique_id l m n :
  NoDup (id <$> l) → m ∈ l → n ∈ l → id m = id n → m = n.
Proof.
  induction l as [|a l IH]; cbn [fmap list_fmap].
  { by intros _ ?%elem_of_nil. }
  intros [Ha Hl]%NoDup_cons Hm Hn E.
  apply elem_of_cons in Hm as [->|Hm]; apply elem_of_cons in Hn as [->|Hn].
  - done.
  - exfalso. apply Ha. rewrite E. by apply list_elem_of_fmap_2.
  - exfalso. apply Ha. rewrite <- E. by apply list_elem_of_fmap_2.
  - by apply IH.
Qed.

Lemma handleEdit_found w X n :
  List.find (λ m, bool_decide (id m = X)) (notes w) = Some n →
  ∃ w', dispatch (ClickEdit X) w = Ok w'
        ∧ input w' = text n ∧ editId w' = Some X ∧ focused w' = true
        ∧ notes w' = notes w ∧ storage w' = storage w ∧ timers w' = timers w
        ∧ debounceTimeout w' = debounceTimeout w ∧ now w' = now w
        ∧ (rendered w → sent w' = sent w).
Proof.
  intros E. cbn [dispatch]. unfold handleEdit. rewrite E.
  set (w1 := focus (setEditId (Some X) (setInput (text n) w))).
  exists (render w1). split; [done|].
  rewrite render_focused.
  destruct (render_state w1) as (-> & _ & -> & -> & _ & -> & -> & -> & _ & -> & _).
  repeat split; try done.
  intros Hr. by rewrite render_idle.
Qed.

(** X1: asking to edit an id that notes carry loads the text of the first
    note with that id into the input, enters edit mode for the id and moves
    the focus; the list, the storage and the timers stay as they were and
    nothing is sent. *)
Theorem edit_loads_first_match w X l1 n l2 :
  notes w = l1 ++ n :: l2 → id n = X → X ∉ id <$> l1 →
  ∃ w', dispatch (ClickEdit X) w = Ok w'
        ∧ input w' = text n ∧ editId w' = Some X ∧ focused w' = true
        ∧ notes w' = notes w ∧ storage w' = storage w ∧ timers w' = timers w
        ∧ (rendered w → sent w' = sent w).
Proof.
  intros Hl Hn Hfirst.
  destruct (handleEdit_found w X n) as (w' & ? & ? & ? & ? & ? & ? & ? & _ & _ & ?).
  { rewrite Hl. by apply find_first. }
  exists w'. done.
Qed.

Lemma edit_loads_first_match_witness :
  ∃ w', dispatch (ClickEdit 1) twins = Ok w'
        ∧ input w' = [97] ∧ editId w' = Some 1%Z ∧ focused w' = true
        ∧ notes w' = notes twins ∧ storage w' = storage twins
        ∧ timers w' = timers twins
        ∧ (rendered twins → sent w' = sent twins).
Proof.
  apply (edit_loads_first_match twins 1 [] (Note 1 [97]) [Note 1 [98]]).
  - reflexivity.
  - reflexivity.
  - vm_compute. apply not_elem_of_nil.
Defined.

(** X2: the Edit button of a listed note never throws: the click enters edit
    mode for the id of that note and leaves the list alone, and where the ids
    of the list are distinct it loads the text of that very note. *)
Theorem listed_edit_never_throws (isPending : bool) w (it : item_view) :
  it ∈ list_items (CatatanOnline_view isPending w) →
  ∃ w', dispatch (onEditClick it) w = Ok w'
        ∧ editId w' = Some (item_key it)
        ∧ notes w' = notes w
        ∧ (NoDup (id <$> notes w) → input w' = item_text it).
Proof.
  cbn [CatatanOnline_view list_items].
  intros (n & -> & Hn)%list_elem_of_fmap. cbn [onEditClick item_key item_text].
  destruct (find_present (notes w) (id n) n Hn eq_refl) as (m & E & Hm & Hi).
  destruct (handleEdit_found w (id n) m E)
    as (w' & ? & Hin & ? & _ & ? & _).
  exists w'. repeat split; try done.
  intros Hnd. rewrite Hin. f_equal. by apply (unique_id (notes w)).
Qed.

Lemma listed_edit_never_throws_witness :
  ∃ w', dispatch (ClickEdit 6) (world_of [Note 5 [97]; Note 6 [99]] [] None 7) = Ok w'
        ∧ editId w' = Some 6%Z
        ∧ notes w' = [Note 5 [97]; Note 6 [99]]
        ∧ (NoDup (id <$> [Note 5 [97]; Note 6 [99]]) → input w' = [99]).
Proof.
  apply (listed_edit_never_throws false
           (world_of [Note 5 [97]; Note 6 [99]] [] None 7)
           (ItemView 6 [99] (ClickEdit 6) (ClickDelete 6))).
  vm_compute. right. left.
Defined.

End edit_facts.

(** ** The list and the storage across events *)

Section event_facts.

Implicit Types (w : world) (X : Z) (e : event) (v : jsstring).

Lemma handleInput_keeps w v :
  notes (handleInput v w) = notes w ∧ editId (handleInput v w) = editId w
  ∧ storage (handleInput v w) = storage w ∧ input (handleInput v w) = input w
  ∧ sync (handleInput v w) = sync w.
Proof. unfold handleInput. by destruct (debounceTimeout w). Qed.

Lemma handleEdit_keeps w X w' :
  handleEdit X w = Ok w' → notes w' = notes w ∧ storage w' = storage w.
Proof.
  unfold handleEdit. destruct (List.find _ _); [|done]. by intros [= <-].
Qed.

(** What an event that does not call [setNotes] leaves alone. *)
Lemma dispatch_quiet e w w' :
  dispatch e w = Ok w' → ¬ mutates e w →
  notes w' = notes w ∧ storage w' = storage w.
Proof.
  intros Hd Hm. destruct e as [v| |X|X]; cbn [dispatch mutates] in *.
  - injection Hd as <-.
    destruct (render_state (handleInput v w))
      as (-> & _ & _ & _ & _ & _ & _ & _ & _ & -> & _).
    by destruct (handleInput_keeps w v) as (-> & _ & -> & _).
  - injection Hd as <-. unfold handleAddOrEdit.
    destruct (decide (trim (input w) = [])) as [E|E]; [|done].
    rewrite falsy_true by done.
    by destruct (render_state w) as (-> & _ & _ & _ & _ & _ & _ & _ & _ & -> & _).
  - destruct (handleEdit X w) as [w1|] eqn:E; [|done]. injection Hd as <-.
    destruct (render_state w1) as (-> & _ & _ & _ & _ & _ & _ & _ & _ & -> & _).
    by apply handleEdit_keeps in E.
  - done.
Qed.

(** What an event that calls [setNotes] does to the list and the storage. *)
Lemma dispatch_mutation e w w' :
  dispatch e w = Ok w' → mutates e w →
  storage w' = useLocalStorage_save (storage w) (units "catatan") (notes w')
  ∧ notes_ref w' = S (notes_ref w) ∧ sync w' = true
  ∧ (rendered w → sent w' = sent w ++ [post (notes w')]).
Proof.
  intros Hd Hm. destruct e as [v| |X|X]; cbn [dispatch mutates] in *; try done.
  - injection Hd as <-.
    destruct (render_state (handleAddOrEdit w))
      as (-> & -> & _ & _ & -> & _ & _ & _ & _ & -> & _).
    split; [|split; [|split]].
    + rewrite handleAddOrEdit_accepts by done. by destruct (editId w).
    + by apply handleAddOrEdit_bookkeeping.
    + by apply handleAddOrEdit_bookkeeping.
    + intros Hr. by apply submit_posts.
  - injection Hd as <-.
    destruct (render_state (handleDelete X w))
      as (-> & -> & _ & _ & -> & _ & _ & _ & _ & -> & _).
    repeat split; try done. intros Hr. by apply delete_posts.
Qed.

(** X3: if no note of the list is blank, no event and no passage of time
    makes one: a submit stores only input that [trim] does not empty. *)
Theorem nonblank_notes_kept w :
  notes_nonblank w →
  (∀ e w', dispatch e w = Ok w' → notes_nonblank w')
  ∧ notes_nonblank (tick w).
Proof.
  intros Hnb. split.
  - intros e w' Hd. destruct (decide (mutates e w)) as [Hm|Hm].
    2:{ apply (dispatch_quiet e w w' Hd) in Hm as [E _].
        unfold notes_nonblank. by rewrite E. }
    destruct e as [v| |X|X]; cbn [dispatch mutates] in *; try done.
    + injection Hd as <-. unfold notes_nonblank.
      destruct (render_state (handleAddOrEdit w)) as (-> & _).
      rewrite handleAddOrEdit_accepts by done.
      destruct (editId w) as [x|]; cbn.
      * intros n (m & -> & Hmem)%list_elem_of_fmap.
        destruct (decide (id m = x)); [done | by apply Hnb].
      * intros n [Hmem|Hmem]%elem_of_app; [by apply Hnb|].
        by apply list_elem_of_singleton in Hmem as ->.
    + injection Hd as <-. unfold notes_nonblank.
      destruct (render_state (handleDelete X w)) as (-> & _).
      destruct (handleDelete_state w X) as (-> & _).
      intros n [_ Hmem]%list_elem_of_filter. by apply Hnb.
  - unfold notes_nonblank. by destruct (tick_keeps w) as (-> & _).
Qed.

Lemma nonblank_notes_kept_witness :
  (∀ e w', dispatch e (world_of [Note 5 [97]] [32; 98] None 7) = Ok w' →
           notes_nonblank w')
  ∧ notes_nonblank (tick (world_of [Note 5 [97]] [32; 98] None 7)).
Proof.
  apply (nonblank_notes_kept (world_of [Note 5 [97]] [32; 98] None 7)).
  intros n ->%list_elem_of_singleton. vm_compute. discriminate.
Defined.

Lemma save_accepts ls L :
  accepts ls L →
  useLocalStorage_load (useLocalStorage_save ls (units "catatan") L)
    (units "catatan") (JArr []) = notes_to_json L.
Proof.
  intros [Ha Hq]. rewrite save_accepted by done.
  unfold useLocalStorage_load, getItem. cbn [available items].
  rewrite lookup_insert_eq. change (falsy (JSON_stringify L)) with false.
  cbv iota. by rewrite JSON_parse_stringify.
Qed.

Lemma save_refused ls L :
  ¬ accepts ls L → useLocalStorage_save ls (units "catatan") L = ls.
Proof.
  unfold accepts, useLocalStorage_save, setItem. intros H.
  destruct (available ls); [|done]. destruct (decide _); [|done].
  exfalso. by apply H.
Qed.

Lemma persisted_mount w (t0 : Z) :
  persisted w → ∃ w0, mount (storage w) t0 = Some w0 ∧ notes w0 = notes w.
Proof.
  unfold persisted, mount. intros ->. rewrite json_to_notes_to_json.
  eexists. split; [reflexivity|]. exact (proj1 (render_state _)).
Qed.

(** X4: when the storage takes the write, every event leaves the storage
    holding the list the component holds, so that a component mounted on the
    storage afterwards starts from that list: a mutation writes it, and the
    other events touch neither the list nor the storage. *)
Theorem accepted_write_persists e w w' :
  dispatch e w = Ok w' →
  accepts (storage w) (notes w') →
  mutates e w ∨ persisted w →
  persisted w'
  ∧ ∀ t0, ∃ w0, mount (storage w') t0 = Some w0 ∧ notes w0 = notes w'.
Proof.
  intros Hd Ha Hor.
  assert (persisted w') as Hp.
  { destruct (decide (mutates e w)) as [Hm|Hm].
    - destruct (dispatch_mutation e w w' Hd Hm) as (Es & _).
      unfold persisted. rewrite Es. by apply save_accepts.
    - destruct Hor as [?|Hp]; [done|].
      destruct (dispatch_quiet e w w' Hd Hm) as [En Es].
      unfold persisted. by rewrite En, Es. }
  split; [done|]. intros t0. by apply persisted_mount.
Qed.

Lemma accepted_write_persists_witness :
  ∃ w', dispatch (ClickDelete 5) (world_of [Note 5 [97]; Note 6 [99]] [] None 7) = Ok w'
        ∧ persisted w'
        ∧ ∀ t0, ∃ w0, mount (storage w') t0 = Some w0 ∧ notes w0 = notes w'.
Proof.
  eexists. split; [reflexivity|].
  apply (accepted_write_persists (ClickDelete 5)
           (world_of [Note 5 [97]; Note 6 [99]] [] None 7)).
  - reflexivity.
  - split; [reflexivity | vm_compute; lia].
  - left. exact I.
Defined.

(** A mutation always goes through, and leaves the list its updater
    computed. *)
Lemma dispatch_next_notes e w :
  mutates e w → ∃ w', dispatch e w = Ok w' ∧ notes w' = next_notes e w.
Proof.
  intros Hm. destruct e as [v| |X|X]; cbn [dispatch mutates next_notes] in *;
    try done.
  - exists (render (handleAddOrEdit w)). split; [done|].
    destruct (render_state (handleAddOrEdit w)) as (-> & _).
    destruct (editId w) as [x|] eqn:Ee.
    + by destruct (handleAddOrEdit_edit w x Hm Ee) as (-> & _).
    + by destruct (handleAddOrEdit_create w Hm Ee) as (-> & _).
  - exists (render (handleDelete X w)). split; [done|].
    destruct (render_state (handleDelete X w)) as (-> & _).
    by destruct (handleDelete_state w X) as (-> & _).
Qed.

(** X5: when the storage does not take the write of a mutation (it is not
    available, or the text does not fit), the exception is swallowed: the
    event goes through, the list in memory is the mutated one and is posted
    once, and the storage is exactly as it was, so that a later mount reads
    the old content. *)
Theorem refused_write_keeps_storage e w :
  mutates e w →
  ¬ accepts (storage w) (next_notes e w) →
  ∃ w',
    dispatch e w = Ok w'
    ∧ notes w' = next_notes e w
    ∧ storage w' = storage w
    ∧ (rendered w → sent w' = sent w ++ [post (next_notes e w)])
    ∧ ∀ t0, mount (storage w') t0 = mount (storage w) t0.
Proof.
  intros Hm Ha. destruct (dispatch_next_notes e w Hm) as (w' & Hd & En).
  exists w'. split; [done|]. split; [done|].
  destruct (dispatch_mutation e w w' Hd Hm) as (Es & _ & _ & Hs).
  assert (storage w' = storage w) as E.
  { rewrite Es, En. by apply save_refused. }
  split; [done|]. split; [by rewrite <- En|].
  intros t0. by rewrite E.
Qed.

Lemma refused_write_keeps_storage_witness :
  ∃ w',
    dispatch (ClickDelete 5) (world_offline [Note 5 [97]; Note 6 [99]] [] None 7)
    = Ok w'
    ∧ notes w' = [Note 6 [99]]
    ∧ storage w' = LocalStorage false 4096 ∅
    ∧ (rendered (world_offline [Note 5 [97]; Note 6 [99]] [] None 7) →
       sent w' = [] ++ [post [Note 6 [99]]])
    ∧ ∀ t0, mount (storage w') t0 = mount (LocalStorage false 4096 ∅) t0.
Proof.
  apply (refused_write_keeps_storage (ClickDelete 5)
           (world_offline [Note 5 [97]; Note 6 [99]] [] None 7)).
  - exact I.
  - intros [Ha _]. discriminate Ha.
Defined.

End event_facts.

(** ** Events one after another *)

Section composition_facts.

Implicit Types (w : world) (X : Z) (e : event) (v s : jsstring) (k j : nat).

(** X6: deleting the note that is being edited leaves the component in edit
    mode for an id no note has; the submit that follows, with input that is
    not blank, stores no note at all: the list stays the list after the
    delete, and the typed text is dropped with the return to create mode. *)
Theorem delete_under_edit_then_submit w X :
  editId w = Some X → trim (input w) ≠ [] →
  ∃ w1 w2,
    dispatch (ClickDelete X) w = Ok w1
    ∧ editId w1 = Some X
    ∧ dispatch Submit w1 = Ok w2
    ∧ notes w2 = filter (λ n, id n ≠ X) (notes w)
    ∧ editId w2 = None
    ∧ input w2 = [].
Proof.
  intros He Hs.
  set (w1 := render (handleDelete X w)).
  assert (notes w1 = filter (λ n, id n ≠ X) (notes w)
          ∧ editId w1 = Some X ∧ input w1 = input w) as (En & Ee & Ei).
  { subst w1.
    destruct (render_state (handleDelete X w)) as (-> & _ & -> & -> & _).
    destruct (handleDelete_state w X) as (-> & _ & _ & -> & -> & _). done. }
  exists w1, (render (handleAddOrEdit w1)). split; [done|]. split; [done|].
  split; [done|].
  destruct (render_state (handleAddOrEdit w1)) as (-> & _ & -> & -> & _).
  destruct (handleAddOrEdit_edit w1 X) as (-> & -> & -> & _);
    [by rewrite Ei | done |].
  split; [|done]. rewrite edit_missing_id; [done|].
  rewrite En. by intros n [? _]%list_elem_of_filter.
Qed.

Lemma delete_under_edit_then_submit_witness :
  ∃ w1 w2,
    dispatch (ClickDelete 5) (world_of [Note 5 [97]; Note 6 [99]] [98] (Some 5%Z) 7)
    = Ok w1
    ∧ editId w1 = Some 5%Z
    ∧ dispatch Submit w1 = Ok w2
    ∧ notes w2 = filter (λ n, id n ≠ 5%Z) [Note 5 [97]; Note 6 [99]]
    ∧ editId w2 = None
    ∧ input w2 = [].
Proof.
  apply (delete_under_edit_then_submit
           (world_of [Note 5 [97]; Note 6 [99]] [98] (Some 5%Z) 7) 5).
  - reflexivity.
  - vm_compute. discriminate.
Defined.

(** X7: a note that was just added is taken away again by deleting its id:
    with an id that was fresh, the list is back to what it was before the
    submit, however long the delete comes after it. *)
Theorem add_then_delete_restores w k :
  trim (input w) ≠ [] → editId w = None →
  (∀ n, n ∈ notes w → id n ≠ now w) →
  ∃ w1 w2,
    dispatch Submit w = Ok w1
    ∧ dispatch (ClickDelete (now w)) (ticks k w1) = Ok w2
    ∧ notes w2 = notes w.
Proof.
  intros Hs He Hfresh.
  exists (render (handleAddOrEdit w)),
         (render (handleDelete (now w) (ticks k (render (handleAddOrEdit w))))).
  split; [done|]. split; [done|].
  match goal with |- notes (render ?u) = _ =>
    destruct (render_state u) as (-> & _)
  end.
  match goal with |- notes (handleDelete ?x ?u) = _ =>
    destruct (handleDelete_state u x) as (-> & _)
  end.
  destruct (ticks_keeps k (render (handleAddOrEdit w))) as (-> & _).
  destruct (render_state (handleAddOrEdit w)) as (-> & _).
  destruct (handleAddOrEdit_create w Hs He) as [-> _].
  rewrite filter_app, filter_cons_False, filter_nil, app_nil_r
    by (cbn [id]; by intros ?).
  apply filter_absent_id.
  intros (n & E & Hn)%list_elem_of_fmap. by apply (Hfresh n).
Qed.

Lemma add_then_delete_restores_witness :
  ∃ w1 w2,
    dispatch Submit (world_of [Note 5 [97]] [98] None 7) = Ok w1
    ∧ dispatch (ClickDelete 7) (ticks 3 w1) = Ok w2
    ∧ notes w2 = [Note 5 [97]].
Proof.
  apply (add_then_delete_restores (world_of [Note 5 [97]] [98] None 7) 3).
  - vm_compute. discriminate.
  - reflexivity.
  - intros n ->%list_elem_of_singleton. vm_compute. discriminate.
Defined.

Lemma dispatch_mutation_timers e w w' :
  dispatch e w = Ok w' → mutates e w →
  timers w' = timers w ++ [Timer (next_tid w) (now w + 500) cb_setSyncFalse]
  ∧ now w' = now w ∧ sync w' = true
  ∧ debounceTimeout w' = debounceTimeout w
  ∧ next_tid w' = S (next_tid w).
Proof.
  intros Hd Hm. destruct e as [v| |X|X]; cbn [dispatch mutates] in *; try done.
  - injection Hd as <-.
    destruct (render_state (handleAddOrEdit w))
      as (_ & _ & _ & _ & -> & -> & -> & -> & -> & _).
    rewrite handleAddOrEdit_accepts by done. by destruct (editId w).
  - injection Hd as <-.
    by destruct (render_state (handleDelete X w))
      as (_ & _ & _ & _ & -> & -> & -> & -> & -> & _).
Qed.

(** X8: after a mutation the flag is up, and it stays up until the first
    timer that lowers it fires: its own, 500 ms later, or one that an
    earlier mutation left pending, which cuts the new pulse short.  Nothing
    raises the flag again as time passes. *)
Theorem pulse_ends_at_first_reset e w w' k :
  dispatch e w = Ok w' → mutates e w →
  sync w' = true
  ∧ (sync (ticks (S k) w') = true
     ↔ (S k < 500)%nat
       ∧ ∀ t, t ∈ pending_resets w → (now w + Z.of_nat (S k) < due t)%Z).
Proof.
  intros Hd Hm.
  destruct (dispatch_mutation_timers e w w' Hd Hm) as (Et & En & Es & _).
  split; [done|]. rewrite ticks_sync_iff, Et, En, Es. unfold pending_resets.
  split.
  - intros [_ H]. split.
    + specialize (H (Timer (next_tid w) (now w + 500) cb_setSyncFalse)).
      cbn [due cb is_setInput] in H.
      rewrite elem_of_app, list_elem_of_singleton in H.
      specialize (H (or_intror eq_refl) (λ x, x)). lia.
    + intros t [Hn Ht]%list_elem_of_filter. apply H; [|done].
      apply elem_of_app. by left.
  - intros [Hk H]. split; [done|].
    intros t [Ht|Ht]%elem_of_app Hn.
    + apply H. by apply list_elem_of_filter.
    + apply list_elem_of_singleton in Ht as ->. cbn [due]. lia.
Qed.

Lemma pulse_ends_at_first_reset_witness :
  ∃ w', dispatch (ClickDelete 5) (world_of [Note 5 [97]] [] None 7) = Ok w'
        ∧ sync w' = true
        ∧ (sync (ticks 500 w') = true
           ↔ (500 < 500)%nat
             ∧ ∀ t, t ∈ pending_resets (world_of [Note 5 [97]] [] None 7) →
                 (7 + Z.of_nat 500 < due t)%Z).
Proof.
  eexists. split; [reflexivity|].
  apply (pulse_ends_at_first_reset (ClickDelete 5)
           (world_of [Note 5 [97]] [] None 7) _ 499 eq_refl I).
Defined.

End composition_facts.

(** ** Keystrokes among the other timers *)

Section keystroke_facts.

Implicit Types (w : world) (X : Z) (e : event) (v s : jsstring) (k j : nat)
  (t : timer).

Lemma handleInput_timers w v :
  timers (handleInput v w)
  = timers (clearTimeout (debounceTimeout w) w)
    ++ [Timer (next_tid w) (now w + 100) (cb_setInput v)]
  ∧ next_tid (handleInput v w) = S (next_tid w)
  ∧ debounceTimeout (handleInput v w) = Some (next_tid w).
Proof. unfold handleInput. by destruct (debounceTimeout w). Qed.

Lemma clearTimeout_subset w t :
  t ∈ timers (clearTimeout (debounceTimeout w) w) → t ∈ timers w.
Proof.
  destruct (debounceTimeout w); cbn [clearTimeout timers]; [|done].
  by intros [_ ?]%list_elem_of_filter.
Qed.

Lemma filter_resets_clear (l : list timer) (i : nat) :
  (∀ t, t ∈ l → tid t = i → is_setInput (cb t)) →
  filter (λ t, ¬ is_setInput (cb t)) (filter (λ t, tid t ≠ i) l)
  = filter (λ t, ¬ is_setInput (cb t)) l.
Proof.
  induction l as [|t l IH]; intros H; [done|].
  assert (filter (λ t, ¬ is_setInput (cb t)) (filter (λ t, tid t ≠ i) l)
          = filter (λ t, ¬ is_setInput (cb t)) l) as IH'.
  { apply IH. intros t' Ht'. apply H. by right. }
  rewrite (filter_cons (λ t, tid t ≠ i)).
  destruct (decide (tid t ≠ i)) as [Hne|He].
  - rewrite !filter_cons. by rewrite IH'.
  - rewrite IH', filter_cons_False; [done|].
    intros Hn. apply Hn, H; [left|]. by destruct (decide (tid t = i)).
Qed.

Lemma handleInput_timers_owned w v :
  timers_owned w → timers_owned (render (handleInput v w)).
Proof.
  intros (Hlt & Hd & Hown). unfold timers_owned.
  destruct (render_state (handleInput v w))
    as (_ & _ & _ & _ & _ & -> & _ & -> & -> & _).
  destruct (handleInput_timers w v) as (-> & -> & ->).
  split; [|split].
  - intros t [Ht|Ht]%elem_of_app.
    + apply clearTimeout_subset, Hlt in Ht. lia.
    + apply list_elem_of_singleton in Ht as ->. cbn [tid]. lia.
  - intros i [= <-]. lia.
  - intros t [Ht|Ht]%elem_of_app [= E].
    + apply clearTimeout_subset, Hlt in Ht. lia.
    + by apply list_elem_of_singleton in Ht as ->.
Qed.

(** X10: a keystroke cancels nothing but its own earlier timer: the timers
    that will lower the flag are the same before and after it, and the
    bookkeeping of timer identifiers that guarantees this carries over to the
    state after the keystroke. *)
Theorem keystroke_keeps_resets w v :
  timers_owned w →
  pending_resets (render (handleInput v w)) = pending_resets w
  ∧ timers_owned (render (handleInput v w)).
Proof.
  intros Hown. split; [|by apply handleInput_timers_owned].
  destruct Hown as (Hlt & Hd & Hown). unfold pending_resets.
  destruct (render_state (handleInput v w))
    as (_ & _ & _ & _ & _ & _ & _ & -> & _).
  destruct (handleInput_timers w v) as (-> & _).
  rewrite filter_app, filter_cons_False, filter_nil, app_nil_r
    by (cbn [cb is_setInput]; intros H; by apply H).
  destruct (debounceTimeout w) as [i|] eqn:E; cbn [clearTimeout timers]; [|done].
  apply filter_resets_clear. intros t Ht Hi. apply Hown; [done | by rewrite Hi].
Qed.

Lemma keystroke_keeps_resets_witness :
  pending_resets (render (handleInput [98] (world_pulsing [] [] 7)))
  = pending_resets (world_pulsing [] [] 7)
  ∧ timers_owned (render (handleInput [98] (world_pulsing [] [] 7))).
Proof.
  apply (keystroke_keeps_resets (world_pulsing [] [] 7) [98]).
  split; [|split].
  - intros t ->%list_elem_of_singleton. cbn. lia.
  - intros i H. discriminate H.
  - intros t _ H. discriminate H.
Defined.

Lemma dispatch_timers_owned e w w' :
  timers_owned w → dispatch e w = Ok w' → timers_owned w'.
Proof.
  intros Hown Hd. destruct (decide (mutates e w)) as [Hm|Hm].
  - destruct Hown as (Hlt & Hi & Ho).
    destruct (dispatch_mutation_timers e w w' Hd Hm) as (Et & _ & _ & Ed & En).
    unfold timers_owned. rewrite Et, Ed, En. split; [|split].
    + intros t [Ht|Ht]%elem_of_app.
      * apply Hlt in Ht. lia.
      * apply list_elem_of_singleton in Ht as ->. cbn [tid]. lia.
    + intros i E. apply Hi in E. lia.
    + intros t [Ht|Ht]%elem_of_app E; [by apply Ho|].
      apply list_elem_of_singleton in Ht as ->. apply Hi in E. cbn [tid] in E. lia.
  - destruct e as [v| |X|X]; cbn [dispatch mutates] in *.
    + injection Hd as <-. by apply handleInput_timers_owned.
    + injection Hd as <-. unfold handleAddOrEdit.
      destruct (decide (trim (input w) = [])) as [E|E]; [|done].
      rewrite falsy_true by done. unfold timers_owned.
      by destruct (render_state w) as (_ & _ & _ & _ & _ & -> & _ & -> & -> & _).
    + destruct (handleEdit X w) as [w1|] eqn:E; [|done]. injection Hd as <-.
      unfold timers_owned.
      destruct (render_state w1) as (_ & _ & _ & _ & _ & -> & _ & -> & -> & _).
      unfold handleEdit in E. destruct (List.find _ _); [|done].
      by injection E as <-.
    + done.
Qed.

Lemma tick_timers_owned w : timers_owned w → timers_owned (tick w).
Proof.
  intros (Hlt & Hi & Ho). unfold timers_owned.
  destruct (tick_inputs w) as (_ & -> & -> & _).
  destruct (tick_keeps w) as (_ & _ & _ & -> & _).
  split; [|split]; [|done|].
  - by intros t [_ Ht%Hlt]%list_elem_of_filter.
  - intros t [_ Ht]%list_elem_of_filter. by apply Ho.
Qed.

(** Every state the component reaches keeps the books of its timers. *)
Lemma reachable_timers_owned w : reachable w → timers_owned w.
Proof.
  induction 1 as [ls t0 w Hm | e w w' _ IH Hd | w _ IH].
  - unfold mount in Hm. destruct (json_to_notes _) as [l|]; [|done].
    injection Hm as <-. unfold timers_owned.
    match goal with |- context [render ?u] =>
      destruct (render_state u) as (_ & _ & _ & _ & _ & -> & _ & -> & -> & _)
    end.
    cbn [timers debounceTimeout next_tid].
    split; [|split]; [|done|]; by intros t ?%elem_of_nil.
  - by apply (dispatch_timers_owned e w).
  - by apply tick_timers_owned.
Qed.

(** X11: a submit does not wait for the debounce, nor cancel it.  A submit
    that comes less than 100 ms after a keystroke stores the input as it was
    committed before the keystroke; and once the 100 ms are over the timer
    of the keystroke still fires and puts the typed value into the input
    that the submit had cleared. *)
Theorem submit_before_debounce_is_stale w v k :
  debounce_inv w → (k < 100)%nat →
  trim (input w) ≠ [] → editId w = None →
  ∃ w3,
    dispatch Submit (ticks k (render (handleInput v w))) = Ok w3
    ∧ notes w3 = notes w ++ [Note (now w + Z.of_nat k) (input w)]
    ∧ input w3 = []
    ∧ ∀ j, (100 ≤ k + j)%nat → input (ticks j w3) = v.
Proof.
  intros Hinv Hk Hs He.
  destruct (handleInput_pending w v Hinv) as (P1 & I1 & _ & N1 & _).
  set (w1 := render (handleInput v w)) in *.
  destruct (ticks_waiting k w1 _ P1) as (P2 & I2 & _ & N2); [cbn [due]; lia|].
  assert (notes (ticks k w1) = notes w ∧ editId (ticks k w1) = None) as [En Ee].
  { destruct (ticks_keeps k w1) as (-> & -> & _). subst w1.
    destruct (render_state (handleInput v w)) as (-> & _ & _ & -> & _).
    by destruct (handleInput_keeps w v) as (-> & -> & _). }
  set (w2 := ticks k w1) in *.
  assert (trim (input w2) ≠ []) as Hs2 by (by rewrite I2, I1).
  exists (render (handleAddOrEdit w2)). split; [done|].
  destruct (handleAddOrEdit_create w2 Hs2 Ee) as [Ec _].
  destruct (handleAddOrEdit_bookkeeping w2 Hs2) as (_ & _ & Ei & _ & _ & Et).
  destruct (render_state (handleAddOrEdit w2))
    as (Rn & _ & Ri & _ & _ & _ & Rnow & Rt & _).
  split; [|split].
  - rewrite Rn, Ec, En, N2, N1, I2, I1. done.
  - by rewrite Ri.
  - intros j Hj.
    assert (pending_inputs (render (handleAddOrEdit w2))
            = [Timer (next_tid w) (now w + 100) (cb_setInput v)]) as P3.
    { unfold pending_inputs in *. rewrite Rt, Et, filter_app, P2.
      rewrite filter_cons_False, filter_nil by (cbn [cb is_setInput]; tauto).
      done. }
    assert (now (render (handleAddOrEdit w2)) = (now w + Z.of_nat k)%Z) as N3.
    { rewrite Rnow. rewrite handleAddOrEdit_accepts by done.
      rewrite <- N1, <- N2. by destruct (editId w2). }
    destruct (ticks_firing j (render (handleAddOrEdit w2)) _ v P3 eq_refl)
      as (_ & -> & _); [cbn [due]; lia | cbn [due]; lia | done].
Qed.

Lemma submit_before_debounce_is_stale_witness :
  ∃ w3,
    dispatch Submit
      (ticks 40 (render (handleInput (units "new") (world_of [] (units "old") None 0))))
    = Ok w3
    ∧ notes w3 = [] ++ [Note (0 + Z.of_nat 40) (units "old")]
    ∧ input w3 = []
    ∧ ∀ j, (100 ≤ 40 + j)%nat → input (ticks j w3) = units "new".
Proof.
  apply (submit_before_debounce_is_stale
           (world_of [] (units "old") None 0) (units "new") 40).
  - intros t Ht. by apply elem_of_nil in Ht.
  - lia.
  - vm_compute. discriminate.
  - reflexivity.
Defined.

(** X12: the whole edit: the Edit button of a note, a keystroke with the new
    text, 100 ms or more, and the submit.  Every note with the id gets the
    new text, the others stay as they were and where they were, and the
    component is back in create mode with an empty input. *)
Theorem edit_type_wait_submit w X n s k :
  debounce_inv w → n ∈ notes w → id n = X →
  trim s ≠ [] → (100 ≤ k)%nat →
  ∃ w1 w4,
    dispatch (ClickEdit X) w = Ok w1
    ∧ dispatch Submit (ticks k (render (handleInput s w1))) = Ok w4
    ∧ notes w4
      = (λ m, if decide (id m = X) then Note (id m) s else m) <$> notes w
    ∧ editId w4 = None
    ∧ input w4 = [].
Proof.
  intros Hinv Hn Hid Hs Hk.
  destruct (find_present (notes w) X n Hn Hid) as (m & E & _ & _).
  destruct (handleEdit_found w X m E)
    as (w1 & Hd & _ & Ee & _ & En & _ & Et & Edb & Enow & _).
  assert (debounce_inv w1) as Hinv1.
  { unfold debounce_inv. rewrite Et, Edb. exact Hinv. }
  exists w1. 
  destruct (handleInput_pending w1 s Hinv1) as (P2 & _ & _ & N2 & _).
  set (w2 := render (handleInput s w1)) in *.
  destruct (ticks_firing k w2 _ s P2 eq_refl) as (_ & I3 & _);
    [cbn [due]; lia | cbn [due]; lia |].
  assert (notes (ticks k w2) = notes w ∧ editId (ticks k w2) = Some X)
    as [En3 Ee3].
  { destruct (ticks_keeps k w2) as (-> & -> & _). subst w2.
    destruct (render_state (handleInput s w1)) as (-> & _ & _ & -> & _).
    by destruct (handleInput_keeps w1 s) as (-> & -> & _). }
  set (w3 := ticks k w2) in *.
  exists (render (handleAddOrEdit w3)). split; [done|]. split; [done|].
  destruct (render_state (handleAddOrEdit w3)) as (-> & _ & -> & -> & _).
  destruct (handleAddOrEdit_edit w3 X) as (-> & -> & -> & _);
    [by rewrite I3 | done |].
  by rewrite I3, En3.
Qed.

Lemma edit_type_wait_submit_witness :
  ∃ w1 w4,
    dispatch (ClickEdit 5) (world_of [Note 5 [97]; Note 6 [99]] [] None 7) = Ok w1
    ∧ dispatch Submit (ticks 100 (render (handleInput [98] w1))) = Ok w4
    ∧ notes w4
      = (λ m, if decide (id m = 5%Z) then Note (id m) [98] else m)
          <$> [Note 5 [97]; Note 6 [99]]
    ∧ editId w4 = None
    ∧ input w4 = [].
Proof.
  apply (edit_type_wait_submit
           (world_of [Note 5 [97]; Note 6 [99]] [] None 7) 5 (Note 5 [97]) [98] 100).
  - intros t Ht. by apply elem_of_nil in Ht.
  - left.
  - reflexivity.
  - vm_compute. discriminate.
  - lia.
Defined.

End keystroke_facts.

(** ** Bursts of keystrokes, and the edit mode *)

Section burst_facts.

Implicit Types (w u : world) (X : Z) (e : event) (v : jsstring) (k : nat)
  (ks : list (nat * jsstring)).

(** A burst in which every keystroke comes less than 100 ms after the one
    before leaves one pending commit, for the last value, 100 ms after the
    last keystroke. *)
Lemma burst_pending ks u v (i0 : nat) (i c : _) :
  debounce_inv u →
  pending_inputs u = [Timer i0 (now u + 100) (cb_setInput v)] →
  input u = i → input_commits u = c →
  Forall (λ p, (p.1 < 100)%nat) ks →
  ∃ i1,
    debounce_inv (keystrokes ks u)
    ∧ pending_inputs (keystrokes ks u)
      = [Timer i1 (now (keystrokes ks u) + 100) (cb_setInput (last_value v ks))]
    ∧ input (keystrokes ks u) = i
    ∧ input_commits (keystrokes ks u) = c.
Proof.
  revert u v i0. induction ks as [|[pause x] ks IH]; intros u v i0 Hinv HP Hi Hc Hks.
  { exists i0. done. }
  apply Forall_cons in Hks as [Hp Hks]. cbn [fst] in Hp.
  cbn [keystrokes]. unfold last_value. cbn [foldl snd].
  destruct (keystroke_after_pause u _ x pause Hinv HP)
    as (i1 & P1 & I1 & C1 & N1 & Hinv1); [cbn [due]; lia|].
  apply (IH _ x i1); try done.
  - by rewrite P1, N1.
  - by rewrite I1.
  - by rewrite C1.
Qed.

(** X9: the debounce for a burst of any length.  After a first keystroke
    and any number of further ones, each less than 100 ms after the one
    before, the committed input keeps its old value for 100 ms after the
    last keystroke, and from then on holds the value of the last keystroke;
    the burst causes exactly one commit. *)
Theorem debounce_burst_commits_once w v ks :
  debounce_inv w →
  Forall (λ p, (p.1 < 100)%nat) ks →
  let typed := keystrokes ((O, v) :: ks) w in
  (∀ k, (k < 100)%nat →
     input (ticks k typed) = input w
     ∧ input_commits (ticks k typed) = input_commits w)
  ∧ (∀ k, (100 ≤ k)%nat →
       input (ticks k typed) = last_value v ks
       ∧ input_commits (ticks k typed)
         = input_commits w
           ++ [((now typed + 100)%Z, cb_setInput (last_value v ks))]).
Proof.
  intros Hinv Hks typed. subst typed. cbn [keystrokes].
  change (ticks 0 w) with w.
  destruct (handleInput_pending w v Hinv) as (P1 & I1 & C1 & N1 & Hinv1).
  rewrite <- N1 in P1.
  destruct (burst_pending ks _ v _ _ _ Hinv1 P1 I1 C1 Hks)
    as (i1 & _ & P & I & C).
  set (typed := keystrokes ks (render (handleInput v w))) in *.
  split.
  - intros k Hk.
    destruct (ticks_waiting k typed _ P) as (_ & -> & -> & _);
      [cbn [due]; lia | done].
  - intros k Hk.
    destruct (ticks_firing k typed _ _ P eq_refl) as (_ & -> & ->);
      [cbn [due]; lia | cbn [due]; lia |].
    by rewrite C.
Qed.

Lemma debounce_burst_commits_once_witness :
  let w := world_of [] (units "old") None 0 in
  let typed :=
    keystrokes [(0%nat, [97]); (99%nat, [97; 98]); (5%nat, [97; 98; 99])] w in
  (∀ k, (k < 100)%nat →
     input (ticks k typed) = units "old" ∧ input_commits (ticks k typed) = [])
  ∧ (∀ k, (100 ≤ k)%nat →
       input (ticks k typed) = [97; 98; 99]
       ∧ input_commits (ticks k typed)
         = [] ++ [((now typed + 100)%Z, cb_setInput [97; 98; 99])]).
Proof.
  apply (debounce_burst_commits_once (world_of [] (units "old") None 0)
           [97] [(99%nat, [97; 98]); (5%nat, [97; 98; 99])]).
  - intros t Ht. by apply elem_of_nil in Ht.
  - repeat constructor; cbn; lia.
Defined.

(** X13: the edit mode as a state machine.  An Edit click that finds its
    note enters edit mode for that id; a submit that passes the guard leaves
    it; every other event, a blank submit and a delete of the very note
    under edit among them, and the passage of time leave it as it is.  The
    submit button reads "Simpan" exactly in edit mode. *)
Theorem edit_mode_transitions e w w' (isPending : bool) :
  dispatch e w = Ok w' →
  editId w'
  = match e with
    | ClickEdit X => Some X
    | Submit => if decide (trim (input w) = []) then editId w else None
    | Change _ | ClickDelete _ => editId w
    end
  ∧ editId (tick w) = editId w
  ∧ (submit_label (CatatanOnline_view isPending w') = label_simpan
     ↔ is_Some (editId w')).
Proof.
  intros Hd. split; [|split].
  - destruct e as [v| |X|X]; cbn [dispatch] in Hd.
    + injection Hd as <-.
      destruct (render_state (handleInput v w)) as (_ & _ & _ & -> & _).
      by destruct (handleInput_keeps w v) as (_ & -> & _).
    + injection Hd as <-.
      destruct (render_state (handleAddOrEdit w)) as (_ & _ & _ & -> & _).
      destruct (decide (trim (input w) = [])) as [E|E].
      * unfold handleAddOrEdit. by rewrite falsy_true.
      * destruct (editId w) as [x|] eqn:Ee.
        -- by destruct (handleAddOrEdit_edit w x E Ee) as (_ & -> & _).
        -- by destruct (handleAddOrEdit_create w E Ee) as (_ & ->).
    + destruct (handleEdit X w) as [w1|] eqn:E; [|done]. injection Hd as <-.
      destruct (render_state w1) as (_ & _ & _ & -> & _).
      unfold handleEdit in E. destruct (List.find _ _); [|done].
      by injection E as <-.
    + injection Hd as <-.
      destruct (render_state (handleDelete X w)) as (_ & _ & _ & -> & _).
      by destruct (handleDelete_state w X) as (_ & _ & _ & -> & _).
  - by destruct (tick_keeps w) as (_ & -> & _).
  - cbn [CatatanOnline_view submit_label]. destruct (editId w') as [x|].
    + split; [by eexists | done].
    + split; [|intros [x Hx]; discriminate Hx].
      intros H. vm_compute in H. discriminate H.
Qed.

Lemma edit_mode_transitions_witness :
  ∃ w', dispatch (ClickDelete 5) (world_of [Note 5 [97]] [98] (Some 5%Z) 7) = Ok w'
        ∧ editId w' = Some 5%Z
        ∧ submit_label (CatatanOnline_view false w') = label_simpan.
Proof.
  eexists. split; [reflexivity|].
  destruct (edit_mode_transitions (ClickDelete 5)
              (world_of [Note 5 [97]] [98] (Some 5%Z) 7) _ false eq_refl)
    as (E & _ & Hl).
  split; [exact E|]. apply Hl. rewrite E. by eexists.
Defined.

(** X14: the list and the storage change through [setNotes] only: a
    keystroke, an Edit click, a submit that the guard turns away, and the
    passage of time with every timer that fires in it leave both exactly as
    they were. *)
Theorem list_changes_only_by_mutation e w w' k :
  dispatch e w = Ok w' → ¬ mutates e w →
  notes w' = notes w ∧ storage w' = storage w
  ∧ notes (ticks k w') = notes w ∧ storage (ticks k w') = storage w.
Proof.
  intros Hd Hm. destruct (dispatch_quiet e w w' Hd Hm) as [En Es].
  destruct (ticks_keeps k w') as (-> & _ & -> & _). done.
Qed.

Lemma list_changes_only_by_mutation_witness :
  ∃ w', dispatch Submit (world_pulsing [Note 5 [97]] [32; 32] 7) = Ok w'
        ∧ notes w' = [Note 5 [97]]
        ∧ storage w' = LocalStorage true 4096 ∅
        ∧ notes (ticks 600 w') = [Note 5 [97]]
        ∧ storage (ticks 600 w') = LocalStorage true 4096 ∅.
Proof.
  eexists. split; [reflexivity|].
  apply (list_changes_only_by_mutation Submit
           (world_pulsing [Note 5 [97]] [32; 32] 7) _ 600 eq_refl).
  intros H. apply H. reflexivity.
Defined.

End burst_facts.
